(** * Style-aligned attention patch: a shallow embedding and its properties

    The development follows [src/__init__.py]: the batch broadcaster
    ([expand_first], [concat_first]), the statistics normaliser
    ([calc_mean_std], [adain]), the attention dispatch ([sdpa]), the shared
    attention processor, the layer-tree walker ([get_norm_layers]) and the
    normalisation wrapper ([register_norm_forward], [register_shared_norm],
    [StyleAlignedPatch.patch]).

    Tensors are a shape together with an entry function on multi-indices;
    every torch operation the source calls is written out as the index map it
    performs, and returns [None] where torch raises.  Element arithmetic is
    kept abstract in the class [Dtype], so every statement holds for whatever
    floating-point format the tensors carry. *)

From Stdlib Require Import ZArith Lia.
From Stdlib Require Import Floats.PrimFloat.
From stdpp Require Import base option list gmap strings pretty fin_maps.

Set Default Proof Using "Type".

(** ** Element types *)

(** The arithmetic of one tensor element.  Python scalars ([scale], [eps])
    are binary64 floats; [smul] and [sadd] are the mixed operations
    [scalar * element] and [element + scalar].  [mean_red] and [var_red] are
    the reduction kernels behind [Tensor.mean] and [Tensor.var] applied to
    the entries of one reduced slice, in order.  [nonzero] is the truth value
    of a single element. *)
Class Dtype (F : Type) := {
  fadd : F → F → F;
  fsub : F → F → F;
  fmul : F → F → F;
  fdiv : F → F → F;
  fsqrt : F → F;
  smul : float → F → F;
  sadd : F → float → F;
  mean_red : list F → F;
  var_red : list F → F;
  nonzero : F → bool;
}.

(** ** Tensors *)

Record tensor (F : Type) := Tensor {
  shape : list nat;
  entry : list nat → F;
}.
Arguments Tensor {F} _ _.
Arguments shape {F} _.
Arguments entry {F} _ _.

(** [idx] is a valid multi-index of a tensor of shape [sh]. *)
Definition in_bounds (sh idx : list nat) : Prop := Forall2 lt idx sh.

(** Number of elements of a shape. *)
Definition numel (sh : list nat) : nat := foldr Nat.mul 1 sh.

(** Row-major offset of a multi-index, and its inverse. *)
Fixpoint ravel (sh idx : list nat) : nat :=
  match sh, idx with
  | _ :: sh', i :: idx' => i * numel sh' + ravel sh' idx'
  | _, _ => 0
  end.

Fixpoint unravel (sh : list nat) (k : nat) : list nat :=
  match sh with
  | [] => []
  | _ :: sh' => (k / numel sh') :: unravel sh' (k mod numel sh')
  end.

(** All multi-indices of a shape in row-major order, and the entries of a
    tensor laid out that way. *)
Definition indices (sh : list nat) : list (list nat) :=
  unravel sh <$> seq 0 (numel sh).

Definition to_list {F} (t : tensor F) : list F :=
  entry t <$> indices (shape t).

(** The sequence axis of a tensor is its second-to-last one. *)
Definition seq_axis {F} (t : tensor F) : nat := length (shape t) - 2.

(** The sequence length: the extent of the sequence axis. *)
Definition seq_len {F} (t : tensor F) : nat := default 0 (shape t !! seq_axis t).

(** A tensor the processor is meant for: a leading batch axis of even,
    non-zero extent, followed by at least a sequence and a feature axis. *)
Definition batched {F} (t : tensor F) : Prop :=
  ∃ b rest, shape t = b :: rest ∧ Nat.Even b ∧ 0 < b ∧ 2 ≤ length rest.

(** Python's axis normalisation: [-rank <= dim < rank]. *)
Definition norm_dim (rank : nat) (dim : Z) : option nat :=
  if decide (0 ≤ dim < Z.of_nat rank)%Z then Some (Z.to_nat dim)
  else if decide (- Z.of_nat rank ≤ dim < 0)%Z then Some (Z.to_nat (Z.of_nat rank + dim))
  else None.

(** A shape padded on the left with ones up to rank [r]. *)
Definition lpad (r : nat) (sh : list nat) : list nat :=
  replicate (r - length sh) 1 ++ sh.

Module torch.
Section ops.
Context {F : Type} `{!Dtype F}.
Implicit Types t a b : tensor F.

(** [t.shape[dim]]. *)
Definition size t (dim : Z) : option nat :=
  d ← norm_dim (length (shape t)) dim;
  shape t !! d.

(** [t[i]] for a non-negative integer [i]. *)
Definition getitem t (i : nat) : option (tensor F) :=
  match shape t with
  | [] => None
  | n :: rest =>
      if decide (i < n) then Some (Tensor rest (λ idx, entry t (i :: idx)))
      else None
  end.

(** [torch.stack(ts)] along a new leading axis. *)
Definition stack (ts : list (tensor F)) : option (tensor F) :=
  match ts with
  | [] => None
  | t0 :: _ =>
      if decide (Forall (λ t, shape t = shape t0) ts) then
        Some (Tensor (length ts :: shape t0)
                (λ idx, match idx with
                        | [] => entry t0 []
                        | i :: r => entry (nth i ts t0) r
                        end))
      else None
  end.

(** [t.unsqueeze(d)] for [0 <= d <= rank]. *)
Definition unsqueeze t (d : nat) : option (tensor F) :=
  if decide (d ≤ length (shape t)) then
    Some (Tensor (take d (shape t) ++ 1 :: drop d (shape t))
            (λ idx, entry t (take d idx ++ drop (S d) idx)))
  else None.

(** The index an operand of shape [sh] is read at when it is broadcast to
    rank [r]: leading axes are dropped and axes of extent one read index 0. *)
Definition bidx (r : nat) (sh idx : list nat) : list nat :=
  drop (r - length sh)
       (zip_with (λ s i, if decide (s = 1) then 0 else i) (lpad r sh) idx).

(** [t.expand(sizes...)]: a view in which axes of extent one are stretched. *)
Definition expand t (sizes : list nat) : option (tensor F) :=
  let r := length sizes in
  if decide (length (shape t) ≤ r
             ∧ Forall2 (λ s n, s = n ∨ s = 1) (lpad r (shape t)) sizes) then
    Some (Tensor sizes (λ idx, entry t (bidx r (shape t) idx)))
  else None.

(** [t.repeat(reps...)]: the tensor tiled [reps] times along each axis. *)
Definition repeat t (reps : list nat) : option (tensor F) :=
  let r := length reps in
  if decide (length (shape t) ≤ r) then
    Some (Tensor (zip_with Nat.mul (lpad r (shape t)) reps)
            (λ idx, entry t (drop (r - length (shape t))
                               (zip_with (λ s i, i mod s) (lpad r (shape t)) idx))))
  else None.

(** [t[:, ..., lo:hi]] on axis [d] (the axes before it taken whole), with
    Python's clamping of the bounds. *)
Definition slice t (d lo : nat) (hi : option nat) : option (tensor F) :=
  n ← shape t !! d;
  let hi' := from_option (λ h, h `min` n) n hi in
  let lo' := lo `min` n in
  Some (Tensor (<[d := hi' - lo']> (shape t))
          (λ idx, entry t (alter (λ i, lo' + i) d idx))).

(** [t[..., :n, :]]. *)
Definition slice_seq t (n : nat) : option (tensor F) :=
  if decide (2 ≤ length (shape t)) then
    slice t (length (shape t) - 2) 0 (Some n)
  else None.

(** [scalar * t]. *)
Definition scalar_mul (s : float) t : tensor F :=
  Tensor (shape t) (λ idx, smul s (entry t idx)).

(** [t + scalar]. *)
Definition add_scalar t (s : float) : tensor F :=
  Tensor (shape t) (λ idx, sadd (entry t idx) s).

(** [t.sqrt()]. *)
Definition sqrt t : tensor F :=
  Tensor (shape t) (λ idx, fsqrt (entry t idx)).

(** [torch.cat((a, b), dim)]: both operands have the same rank and agree on
    every axis but [dim]. *)
Definition cat a b (dim : Z) : option (tensor F) :=
  d ← norm_dim (length (shape a)) dim;
  na ← shape a !! d;
  nb ← shape b !! d;
  if decide (<[d := 0]> (shape a) = <[d := 0]> (shape b)) then
    Some (Tensor (<[d := na + nb]> (shape a))
            (λ idx, match idx !! d with
                    | Some i => if decide (i < na) then entry a idx
                                else entry b (<[d := i - na]> idx)
                    | None => entry a idx
                    end))
  else None.

(** [t.reshape(sizes...)] of a contiguous tensor. *)
Definition reshape t (sizes : list nat) : option (tensor F) :=
  if decide (numel sizes = numel (shape t)) then
    Some (Tensor sizes (λ idx, entry t (unravel (shape t) (ravel sizes idx))))
  else None.

(** The entries of [t] along axis [d] through the index [idx]. *)
Definition fibre t (d : nat) (idx : list nat) : list F :=
  (λ j, entry t (<[d := j]> idx)) <$> seq 0 (default 0 (shape t !! d)).

(** A reduction over axis [dim] with [keepdims=True]. *)
Definition reduce (red : list F → F) t (dim : Z) : option (tensor F) :=
  d ← norm_dim (length (shape t)) dim;
  Some (Tensor (<[d := 1]> (shape t)) (λ idx, red (fibre t d idx))).

Definition var t (dim : Z) : option (tensor F) := reduce var_red t dim.
Definition mean t (dim : Z) : option (tensor F) := reduce mean_red t dim.

(** Broadcasting of two shapes, aligned on the right. *)
Definition broadcast_shapes (sa sb : list nat) : option (list nat) :=
  let r := length sa `max` length sb in
  if decide (Forall2 (λ x y, x = y ∨ x = 1 ∨ y = 1) (lpad r sa) (lpad r sb)) then
    Some (zip_with (λ x y, if decide (x = 1) then y else x) (lpad r sa) (lpad r sb))
  else None.

(** An element-wise binary operation with broadcasting. *)
Definition binop (f : F → F → F) a b : option (tensor F) :=
  sh ← broadcast_shapes (shape a) (shape b);
  Some (Tensor sh (λ idx, f (entry a (bidx (length sh) (shape a) idx))
                            (entry b (bidx (length sh) (shape b) idx)))).

Definition sub := binop fsub.
Definition div := binop fdiv.
Definition mul := binop fmul.
Definition add := binop fadd.

End ops.
End torch.

(** ** The repository's functions *)

(** [exists(val)]: [val is not None]. *)
Definition exists_ {A} (val : option A) : bool :=
  match val with Some _ => true | None => false end.

(** [default(val, d)]. *)
Definition default_ {A} (val : option A) (d : A) : A :=
  if exists_ val then match val with Some v => v | None => d end else d.

(** The frozen dataclass [StyleAlignedArgs]. *)
Record StyleAlignedArgs := {
  share_attention : bool;
  adain_queries : bool;
  adain_keys : bool;
  adain_values : bool;
  shared_score_shift : float;
  only_self_level : float;
}.

(** [StyleAlignedArgs()]: the field defaults. *)
Definition StyleAlignedArgs_default : StyleAlignedArgs :=
  {| share_attention := true; adain_queries := true; adain_keys := true;
     adain_values := false; shared_score_shift := 0; only_self_level := 0 |}.

(** The literal [1e-5] as Python reads it: the nearest binary64 value. *)
Definition eps_default : float := 0x1.4f8b588e368f1p-17%float.

Section functions.
Context {F : Type} `{!Dtype F}.
Implicit Types feat q k v : tensor F.

Definition expand_first feat (scale : float) : option (tensor F) :=
  b ← shape feat !! 0;
  f0 ← torch.getitem feat 0;
  fh ← torch.getitem feat (b / 2);
  st ← torch.stack [f0; fh];
  feat_style ← torch.unsqueeze st 1;
  feat_style ←
    (if (scale =? 1)%float then
       torch.expand feat_style (2 :: b / 2 :: tail (shape feat))
     else
       rep ← torch.repeat feat_style [1; b / 2; 1; 1; 1];
       lead ← torch.slice rep 1 0 (Some 1);
       others ← torch.slice rep 1 1 None;
       torch.cat lead (torch.scalar_mul scale others) 1);
  torch.reshape feat_style (shape feat).

(** The stacked pair of style elements with the unit axis inserted: what
    [expand_first] holds in [feat_style] before it branches on [scale]. *)
Definition style_pair feat (b : nat) (rest : list nat) : tensor F :=
  Tensor (2 :: 1 :: rest)
    (λ idx, match take 1 idx ++ drop 2 idx with
            | [] => entry feat [0]
            | i :: r =>
                entry (nth i [Tensor rest (λ idx0, entry feat (0 :: idx0));
                              Tensor rest (λ idx0, entry feat (b / 2 :: idx0))]
                         (Tensor rest (λ idx0, entry feat (0 :: idx0)))) r
            end).

Definition concat_first feat (dim : Z) (scale : float) : option (tensor F) :=
  feat_style ← expand_first feat scale;
  torch.cat feat feat_style dim.

Definition calc_mean_std feat (eps : float) : option (tensor F * tensor F) :=
  feat_var ← torch.var feat (-2);
  let feat_std := torch.sqrt (torch.add_scalar feat_var eps) in
  feat_mean ← torch.mean feat (-2);
  Some (feat_mean, feat_std).

Definition adain feat : option (tensor F) :=
  '(feat_mean, feat_std) ← calc_mean_std feat eps_default;
  feat_style_mean ← expand_first feat_mean 1;
  feat_style_std ← expand_first feat_std 1;
  centred ← torch.sub feat feat_mean;
  normed ← torch.div centred feat_std;
  scaled ← torch.mul normed feat_style_std;
  torch.add scaled feat_style_mean.

(** *** Attention dispatch *)

(** What can be passed for [mask] besides [None]: a tensor or a Python list
    of tensors. *)
Inductive pyobject :=
  | PyTensor (t : tensor F)
  | PyList (items : list (tensor F)).

(** [Tensor.__bool__]: defined for exactly one element, an error otherwise. *)
Definition tensor_bool (t : tensor F) : option bool :=
  if decide (numel (shape t) = 1) then
    Some (nonzero (entry t (unravel (shape t) 0)))
  else None.

(** Python's truth test [if mask:]; [None] on the left is Python's [None]. *)
Definition truth (mask : option pyobject) : option bool :=
  match mask with
  | None => Some false
  | Some (PyTensor t) => tensor_bool t
  | Some (PyList items) => Some (bool_decide (items ≠ []))
  end.

(** The two kernels of the host are opaque: a call is recorded by its name
    and arguments. *)
Inductive attention_call :=
  | optimized_attention (q k v : tensor F) (heads : Z)
  | optimized_attention_masked (q k v : tensor F) (heads : Z) (mask : option pyobject).

Definition sdpa q k v (mask : option pyobject) (heads : Z) : option attention_call :=
  c ← truth mask;
  if c : bool then Some (optimized_attention_masked q k v heads mask)
  else Some (optimized_attention q k v heads).

(** *** Shared attention processor *)

Record SharedAttentionProcessor := {
  args : StyleAlignedArgs;
  ref_img : option (tensor F);
  scale : float;
}.

(** [SharedAttentionProcessor.__init__]. *)
Definition SharedAttentionProcessor_init (a : StyleAlignedArgs) (s : float)
    (style_image : option (tensor F)) : SharedAttentionProcessor :=
  {| args := a; ref_img := style_image; scale := s |}.

(** [SharedAttentionProcessor.__call__]; [extra_options] is whatever the host
    passes along. *)
Definition SharedAttentionProcessor_call {E} (self : SharedAttentionProcessor)
    q k v (extra_options : E) : option (tensor F * tensor F * tensor F) :=
  q ← (if adain_queries (args self) then adain q else Some q);
  k ← (if adain_keys (args self) then adain k else Some k);
  v ← (if adain_values (args self) then adain v else Some v);
  '(k, v) ← (if share_attention (args self) then
               k' ← concat_first k (-2) (scale self);
               v' ← concat_first v (-2) 1;
               Some (k', v')
             else Some (k, v));
  Some (q, k, v).

End functions.
Arguments pyobject : clear implicits.
Arguments attention_call : clear implicits.
Arguments SharedAttentionProcessor : clear implicits.

(** *** Layer-tree walker *)

Inductive module_kind := LayerNorm | GroupNorm | OtherModule.

(** A module of the model: the identity of the Python object, its class and
    its [children()]. *)
#[warnings="-register-all"]
Inductive nn_module :=
  | Mod (self : nat) (kind : module_kind) (children : list nn_module).

Definition isinstance_LayerNorm (k : module_kind) : bool :=
  match k with LayerNorm => true | _ => false end.

Definition isinstance_GroupNorm (k : module_kind) : bool :=
  match k with GroupNorm => true | _ => false end.

(** [d[key].append(x)]: a [KeyError] when the key is missing. *)
Definition dict_append (key : string) (x : nat) (d : gmap string (list nat))
    : option (gmap string (list nat)) :=
  l ← d !! key;
  Some (<[key := l ++ [x]]> d).

(** A [for] loop over a list that threads a state and stops at the first
    error. *)
Definition for_each {A S} (body : A → S → option S) : list A → S → option S :=
  fix go (l : list A) (s : S) : option S :=
    match l with
    | [] => Some s
    | x :: l' => s' ← body x s; go l' s'
    end.

Fixpoint get_norm_layers (layer : nn_module) (norm_layers_ : gmap string (list nat))
    (share_layer_norm share_group_norm : bool) : option (gmap string (list nat)) :=
  match layer with
  | Mod self kind children =>
      d ← (if isinstance_LayerNorm kind && share_layer_norm
           then dict_append "layer" self norm_layers_
           else Some norm_layers_);
      if isinstance_GroupNorm kind && share_group_norm
      then dict_append "group" self d
      else
        for_each (λ child_layer d,
                    get_norm_layers child_layer d share_layer_norm share_group_norm)
                 children d
  end.

(** What the walker is to record, in the words of the specification: a
    group-norm node is recorded when group sharing is on and nothing below
    it is looked at; any other node passes the walk on to its children. *)
Fixpoint recorded_group (share_group_norm : bool) (layer : nn_module) : list nat :=
  match layer with
  | Mod self kind children =>
      if isinstance_GroupNorm kind && share_group_norm then [self]
      else flat_map (recorded_group share_group_norm) children
  end.

(** A layer-norm node is recorded when layer sharing is on; its children
    are walked unless the node is a recorded group-norm. *)
Fixpoint recorded_layer (share_layer_norm share_group_norm : bool)
    (layer : nn_module) : list nat :=
  match layer with
  | Mod self kind children =>
      (if isinstance_LayerNorm kind && share_layer_norm then [self] else [])
      ++ (if isinstance_GroupNorm kind && share_group_norm then []
          else flat_map (recorded_layer share_layer_norm share_group_norm) children)
  end.

(** The effect of a walk on the dictionary: the two lists grow at their end
    by [g] and [l], and no other key changes. *)
Definition walked (d d' : gmap string (list nat)) (g l : list nat) : Prop :=
  ∃ g0 l0, d !! "group" = Some g0 ∧ d !! "layer" = Some l0 ∧
    d' !! "group" = Some (g0 ++ g) ∧ d' !! "layer" = Some (l0 ++ l) ∧
    ∀ key, key ≠ "group" → key ≠ "layer" → d' !! key = d !! key.

(** Every node of a layer tree with its class, the root first; used to say
    where a recorded object comes from. *)
Fixpoint nodes (layer : nn_module) : list (nat * module_kind) :=
  match layer with
  | Mod self kind children => (self, kind) :: flat_map nodes children
  end.

(** *** Shared normalisation wrapper *)

(** A callable stored in (or looked up as) a layer's [forward]: the bound
    method of the layer's class, or a closure [forward_] with the
    [orig_forward] it captured. *)
Inductive forward_fn :=
  | class_forward (self : nat)
  | forward_ (orig_forward : forward_fn).

(** The instance dictionaries of the module objects; an object that is not
    listed has set no attribute of its own. *)
Definition instance_dict (heap : gmap nat (gmap string forward_fn)) (obj : nat)
    : gmap string forward_fn :=
  default ∅ (heap !! obj).

(** Attribute lookup: the instance dictionary first, then the class, which
    defines [forward] only. *)
Definition getattr (heap : gmap nat (gmap string forward_fn)) (obj : nat)
    (name : string) : option forward_fn :=
  match instance_dict heap obj !! name with
  | Some f => Some f
  | None => if decide (name = "forward") then Some (class_forward obj) else None
  end.

Definition hasattr (heap : gmap nat (gmap string forward_fn)) (obj : nat)
    (name : string) : bool :=
  match getattr heap obj name with Some _ => true | None => false end.

Definition setattr (heap : gmap nat (gmap string forward_fn)) (obj : nat)
    (name : string) (f : forward_fn) : gmap nat (gmap string forward_fn) :=
  <[obj := <[name := f]> (instance_dict heap obj)]> heap.

Definition register_norm_forward (heap : gmap nat (gmap string forward_fn))
    (norm_layer : nat) : option (gmap nat (gmap string forward_fn) * nat) :=
  heap ← (if negb (hasattr heap norm_layer "orig_forward") then
            f ← getattr heap norm_layer "forward";
            Some (setattr heap norm_layer "orig_forward" f)
          else Some heap);
  orig_forward ← getattr heap norm_layer "orig_forward";
  Some (setattr heap norm_layer "forward" (forward_ orig_forward), norm_layer).

(** [[register_norm_forward(layer) for layer in ls]]. *)
Fixpoint register_each (heap : gmap nat (gmap string forward_fn)) (ls : list nat)
    : option (gmap nat (gmap string forward_fn) * list nat) :=
  match ls with
  | [] => Some (heap, [])
  | layer :: ls' =>
      '(heap, r) ← register_norm_forward heap layer;
      '(heap, rs) ← register_each heap ls';
      Some (heap, r :: rs)
  end.

(** The computation a wrapper of [layer] is to delegate to, in the words of
    the specification: the original cached by an earlier wrap if there is
    one, and the layer's current [forward] otherwise. *)
Definition cached_original (heap : gmap nat (gmap string forward_fn))
    (layer : nat) : forward_fn :=
  match instance_dict heap layer !! "orig_forward" with
  | Some f => f
  | None => default (class_forward layer) (instance_dict heap layer !! "forward")
  end.

(** The heap after [layer] has been wrapped: it holds the cached original
    and a [forward_] closure over it; no other object changes. *)
Definition wrapped (heap : gmap nat (gmap string forward_fn)) (layer : nat)
    : gmap nat (gmap string forward_fn) :=
  <[layer := <["forward" := forward_ (cached_original heap layer)]>
               (<["orig_forward" := cached_original heap layer]>
                  (instance_dict heap layer))]> heap.

Section forward.
Context {F : Type} `{!Dtype F}.

(** Calling a [forward].  [native self] is the layer's own normalisation,
    the computation of [nn.GroupNorm.forward] or [nn.LayerNorm.forward]. *)
Fixpoint call_forward (native : nat → tensor F → option (tensor F))
    (f : forward_fn) (hidden_states : tensor F) : option (tensor F) :=
  match f with
  | class_forward self => native self hidden_states
  | forward_ orig_forward =>
      n ← torch.size hidden_states (-2);
      hidden_states ← concat_first hidden_states (-2) 1;
      hidden_states ← call_forward native orig_forward hidden_states;
      torch.slice_seq hidden_states n
  end.

(** *** The host's model object and the patch *)

(** Modelled from the spec: the host's model object (section 6), which
    exposes a layer tree, a list of attention hooks, [clone] and
    [set_model_attn1_patch]; its class is not part of this repository. *)
Record ModelPatcher := {
  model : nn_module;
  attn1_patch : list (SharedAttentionProcessor F);
}.

(** The objects a patch can touch: the instance dictionaries of the modules,
    the model objects, and what was printed. *)
Record world := {
  modules : gmap nat (gmap string forward_fn);
  patchers : gmap nat ModelPatcher;
  stdout : list string;
}.

(** The layer tree the copy made by [clone] refers to: the same tree when
    the copy shares the underlying model, another one when it does not. *)
Variable clone_model : nn_module → nn_module.

(** Modelled from the spec: [model.clone()], a new model object with the
    hooks of the old one (section 6, "cloneable copy-on-patch"). *)
Definition ModelPatcher_clone (w : world) (self : nat) : option (world * nat) :=
  p ← patchers w !! self;
  let m := fresh (dom (patchers w)) in
  Some ({| modules := modules w;
           patchers := <[m := {| model := clone_model (model p);
                                  attn1_patch := attn1_patch p |}]> (patchers w);
           stdout := stdout w |}, m).

(** Modelled from the spec: [m.set_model_attn1_patch(patch)], which adds the
    hook to this model object (section 6, "a settable attention hook"). *)
Definition set_model_attn1_patch (w : world) (self : nat)
    (patch : SharedAttentionProcessor F) : option world :=
  p ← patchers w !! self;
  Some {| modules := modules w;
          patchers := <[self := {| model := model p;
                                    attn1_patch := attn1_patch p ++ [patch] |}]> (patchers w);
          stdout := stdout w |}.

Definition register_shared_norm (w : world) (model_ : nat)
    (share_group_norm share_layer_norm : bool) : option (world * list nat) :=
  let norm_layers : gmap string (list nat) := <["group" := []]> (<["layer" := []]> ∅) in
  p ← patchers w !! model_;
  norm_layers ← get_norm_layers (model p) norm_layers share_layer_norm share_group_norm;
  group ← norm_layers !! "group";
  layer ← norm_layers !! "layer";
  let out := stdout w ++ ["Patching " +:+ pretty (length group) +:+ " group norms, "
                          +:+ pretty (length layer) +:+ " layer norms."] in
  '(heap, rg) ← register_each (modules w) group;
  '(heap, rl) ← register_each heap layer;
  Some ({| modules := heap; patchers := patchers w; stdout := out |}, rg ++ rl).

(** [StyleAlignedPatch.patch]; [self.args] is [StyleAlignedArgs()]. *)
Definition patch (w : world) (model_ : nat) (share_norm : string) (scale_ : float)
    (style_image : option (tensor F)) : option (world * nat) :=
  '(w, m) ← ModelPatcher_clone w model_;
  let share_group_norm := bool_decide (share_norm ∈ ["group"; "both"]) in
  let share_layer_norm := bool_decide (share_norm ∈ ["layer"; "both"]) in
  '(w, _) ← register_shared_norm w model_ share_group_norm share_layer_norm;
  w ← set_model_attn1_patch w m
        (SharedAttentionProcessor_init StyleAlignedArgs_default scale_ style_image);
  Some (w, m).

End forward.
Arguments ModelPatcher : clear implicits.
Arguments world : clear implicits.

(** ** Binary64 elements, for concrete runs *)

Fixpoint float_of_nat (n : nat) : float :=
  match n with O => 0%float | S n' => (float_of_nat n' + 1)%float end.

Definition float_sum (l : list float) : float := foldl PrimFloat.add 0%float l.

Definition float_mean (l : list float) : float :=
  (float_sum l / float_of_nat (length l))%float.

(** The unbiased variance, which is what [Tensor.var] computes by default. *)
Definition float_var (l : list float) : float :=
  let m := float_mean l in
  (float_sum ((λ x, (x - m) * (x - m))%float <$> l)
   / float_of_nat (length l - 1))%float.

#[global] Instance float_dtype : Dtype float := {|
  fadd := PrimFloat.add; fsub := PrimFloat.sub;
  fmul := PrimFloat.mul; fdiv := PrimFloat.div;
  fsqrt := PrimFloat.sqrt;
  smul := PrimFloat.mul; sadd := PrimFloat.add;
  mean_red := float_mean; var_red := float_var;
  nonzero := λ x, negb (x =? 0)%float;
|}.

(** A tensor given by its shape and its entries in row-major order. *)
Definition tensor_of_list (sh : list nat) (data : list float) : tensor float :=
  Tensor sh (λ idx, nth (ravel sh idx) data 0%float).

(** Two batch elements of one head, one position and one feature. *)
Definition sample_pair : tensor float := tensor_of_list [2; 1; 1; 1] [1; 3]%float.

(** Four batch elements, two positions, one feature. *)
Definition sample_seq : tensor float :=
  tensor_of_list [4; 2; 1] [1; 2; 3; 4; 5; 6; 7; 8]%float.

(** Four batch elements, one head, two positions, one feature. *)
Definition sample_batch : tensor float :=
  tensor_of_list [4; 1; 2; 1] [1; 2; 3; 4; 5; 6; 7; 8]%float.

(** The processor of the default configuration with key scale 0.5. *)
Definition sample_processor : SharedAttentionProcessor float :=
  SharedAttentionProcessor_init StyleAlignedArgs_default 0.5 None.

(** A toy layer tree: a group-norm with a layer-norm child, next to a
    layer-norm. *)
Definition sample_tree : nn_module :=
  Mod 0 OtherModule [Mod 1 GroupNorm [Mod 2 LayerNorm []]; Mod 3 LayerNorm []].

(** A host state with one model object over the toy tree. *)
Definition sample_world : world float :=
  {| modules := ∅;
     patchers := {[ 7 := {| model := sample_tree; attn1_patch := [] |} ]};
     stdout := [] |}.

(** Three batch elements, two positions, one feature: an odd batch. *)
Definition sample_odd : tensor float :=
  tensor_of_list [3; 2; 1] [1; 2; 3; 4; 5; 6]%float.

(** Two batch elements with four further axes. *)
Definition sample_rank5 : tensor float :=
  tensor_of_list [2; 1; 1; 1; 2] [1; 2; 3; 4]%float.

(** [sample_seq] with other numbers in batch elements 1 and 3. *)
Definition sample_seq_other : tensor float :=
  Tensor [4; 2; 1]
    (λ idx, match idx with
            | 1 :: _ | 3 :: _ => 9%float
            | _ => entry sample_seq idx
            end).

(** * Properties *)

(** ** Shapes and multi-indices *)

Lemma numel_cons s sh : numel (s :: sh) = s * numel sh.
Proof. reflexivity. Qed.

Lemma in_bounds_length sh idx : in_bounds sh idx → length idx = length sh.
Proof. apply Forall2_length. Qed.

Lemma in_bounds_cons s sh i idx :
  in_bounds (s :: sh) (i :: idx) ↔ i < s ∧ in_bounds sh idx.
Proof. unfold in_bounds. apply Forall2_cons. Qed.

Lemma in_bounds_numel sh idx : in_bounds sh idx → 0 < numel sh.
Proof.
  induction 1 as [|i s idx sh Hi _ IH]; simpl; [lia|].
  apply Nat.mul_pos_pos; lia.
Qed.

Lemma ravel_lt sh idx : in_bounds sh idx → ravel sh idx < numel sh.
Proof.
  induction 1 as [|i s idx sh Hi _ IH]; simpl; [lia|]. nia.
Qed.

Lemma unravel_ravel sh idx : in_bounds sh idx → unravel sh (ravel sh idx) = idx.
Proof.
  induction 1 as [|i s idx sh Hi Hb IH]; simpl; [done|].
  pose proof (ravel_lt _ _ Hb) as Hlt.
  assert (Hq : (i * numel sh + ravel sh idx) / numel sh = i).
  { rewrite Nat.add_comm, Nat.div_add by lia. rewrite Nat.div_small by lia. lia. }
  assert (Hr : (i * numel sh + ravel sh idx) mod numel sh = ravel sh idx).
  { rewrite Nat.add_comm, Nat.Div0.mod_add. apply Nat.mod_small. lia. }
  rewrite Hq, Hr, IH. done.
Qed.

(** Splitting the leading axis of extent [2 * h] into axes of extents [2]
    and [h] does not move any element. *)
Lemma ravel_split h rest i idx :
  0 < h →
  ravel (2 * h :: rest) (i :: idx) = ravel (2 :: h :: rest) (i / h :: i mod h :: idx).
Proof.
  intros Hh. simpl.
  pose proof (Nat.div_mod_eq i h) as Hi.
  set (q := i / h) in *. set (m := i mod h) in *. nia.
Qed.

Lemma unravel_split h rest i idx :
  0 < h → i < 2 * h → in_bounds rest idx →
  unravel (2 :: h :: rest) (ravel (2 * h :: rest) (i :: idx))
  = i / h :: i mod h :: idx.
Proof.
  intros Hh Hi Hb. rewrite ravel_split by done.
  apply unravel_ravel. rewrite !in_bounds_cons. repeat split; [| |done].
  - apply Nat.Div0.div_lt_upper_bound. lia.
  - apply Nat.mod_upper_bound. lia.
Qed.

(** Reading a broadcast operand at a valid index of its own shape. *)
Lemma zip_with_in_bounds sh idx :
  in_bounds sh idx →
  zip_with (λ s i, if decide (s = 1) then 0 else i) sh idx = idx.
Proof.
  induction 1 as [|i s idx sh Hi Hb IH]; simpl; [done|].
  rewrite IH. case_decide; [|done]. f_equal. lia.
Qed.

Lemma zip_with_mod_in_bounds sh idx :
  in_bounds sh idx → zip_with (λ s i, i mod s) sh idx = idx.
Proof.
  induction 1 as [|i s idx sh Hi Hb IH]; simpl; [done|].
  rewrite IH, Nat.mod_small by done. done.
Qed.

Lemma norm_dim_valid rank dim :
  (- Z.of_nat rank ≤ dim < Z.of_nat rank)%Z →
  ∃ d, norm_dim rank dim = Some d ∧ d < rank.
Proof.
  intros Hd. unfold norm_dim. destruct (decide (0 ≤ dim < Z.of_nat rank)%Z).
  - eexists. split; [done|]. lia.
  - rewrite decide_True by lia. eexists. split; [done|]. lia.
Qed.

Lemma in_bounds_lookup sh idx d n :
  in_bounds sh idx → sh !! d = Some n → ∃ i, idx !! d = Some i ∧ i < n.
Proof.
  intros Hb Hn. destruct (Forall2_lookup_r _ _ _ _ _ Hb Hn) as (i & Hi & Hlt).
  eauto.
Qed.

Lemma insert_alter_same {A} (l : list A) d f x :
  <[d := x]> (alter f d l) = <[d := x]> l.
Proof.
  revert d. induction l as [|a l IH]; intros [|d]; simpl; [done..|].
  by rewrite IH.
Qed.

Lemma lpad_same sh : lpad (length sh) sh = sh.
Proof. unfold lpad. by rewrite Nat.sub_diag. Qed.

Lemma numel_app a b : numel (a ++ b) = numel a * numel b.
Proof.
  induction a as [|x a IH]; [simpl; lia|].
  change (numel ((x :: a) ++ b)) with (x * numel (a ++ b)).
  rewrite IH, numel_cons. lia.
Qed.

Lemma numel_replicate_1 n : numel (replicate n 1) = 1.
Proof.
  induction n as [|n IH]; [done|].
  change (numel (replicate (S n) 1)) with (1 * numel (replicate n 1)). lia.
Qed.

Lemma numel_lpad r sh : numel (lpad r sh) = numel sh.
Proof. unfold lpad. rewrite numel_app, numel_replicate_1. lia. Qed.

Lemma numel_zip_mul a b :
  length a = length b → numel (zip_with Nat.mul a b) = numel a * numel b.
Proof.
  revert b. induction a as [|x a IH]; intros [|y b] Hl; try done.
  change (numel (zip_with Nat.mul (x :: a) (y :: b)))
    with (x * y * numel (zip_with Nat.mul a b)).
  rewrite IH by (simpl in Hl; lia). rewrite !numel_cons. lia.
Qed.

Lemma length_lpad r sh : length sh ≤ r → length (lpad r sh) = r.
Proof. intros Hl. unfold lpad. rewrite length_app, length_replicate. lia. Qed.

Lemma norm_dim_minus_2 rank : 2 ≤ rank → norm_dim rank (-2) = Some (rank - 2).
Proof.
  intros Hr. unfold norm_dim. rewrite decide_False by lia.
  rewrite decide_True by lia. f_equal. lia.
Qed.

(** A shape broadcasts against itself with one axis set to one. *)
Lemma broadcast_unit_axis_ok sh d :
  Forall2 (λ x y, x = y ∨ x = 1 ∨ y = 1) sh (<[d := 1]> sh).
Proof.
  revert d. induction sh as [|s sh IH]; intros [|d]; simpl; constructor; auto.
  apply Forall_Forall2_diag, Forall_forall. auto.
Qed.

Lemma broadcast_unit_axis_shape sh d :
  zip_with (λ x y, if decide (x = 1) then y else x) sh (<[d := 1]> sh) = sh.
Proof.
  revert d. induction sh as [|s sh IH]; intros [|d]; simpl; [done..| |].
  - f_equal; [by case_decide|]. clear IH. induction sh as [|s' sh IH]; simpl; [done|].
    f_equal; [by case_decide|done].
  - f_equal; [by case_decide|done].
Qed.

Lemma bidx_unit_axis sh d idx :
  in_bounds sh idx →
  zip_with (λ s i, if decide (s = 1) then 0 else i) (<[d := 1]> sh) idx = <[d := 0]> idx.
Proof.
  intros Hb. revert d.
  induction Hb as [|i s idx sh Hi Hb IH]; intros [|d]; simpl; [done..| |].
  - f_equal. by apply zip_with_in_bounds.
  - rewrite IH. f_equal. case_decide; lia.
Qed.

(** ** The torch operations succeed where their arguments fit *)

Ltac bind_step := cbn [mbind option_bind shape entry].

(** Names the tensor an operation has just returned, keeping its shape and
    its entries as equations. *)
Ltac name_tensor r Hsh He :=
  match goal with
  | |- context [Some (Tensor ?sh ?f) ≫= _] =>
      set (r := Tensor sh f);
      assert (Hsh : shape r = sh) by reflexivity;
      assert (He : ∀ idx, entry r idx = f idx) by reflexivity;
      cbv beta in He; clearbody r; bind_step
  end.

Section torch_facts.
Context {F : Type} `{!Dtype F}.
Implicit Types t x y : tensor F.

Lemma getitem_Some t n rest i :
  shape t = n :: rest → i < n →
  torch.getitem t i = Some (Tensor rest (λ idx, entry t (i :: idx))).
Proof. intros Hsh Hi. unfold torch.getitem. rewrite Hsh. by rewrite decide_True. Qed.

Lemma stack_pair_Some x y :
  shape x = shape y →
  torch.stack [x; y]
  = Some (Tensor (2 :: shape x)
            (λ idx, match idx with
                    | [] => entry x []
                    | i :: r => entry (nth i [x; y] x) r
                    end)).
Proof.
  intros Hxy. unfold torch.stack. rewrite decide_True; [done|].
  repeat constructor. done.
Qed.

Lemma unsqueeze_1 t n rest :
  shape t = n :: rest →
  torch.unsqueeze t 1
  = Some (Tensor (n :: 1 :: rest) (λ idx, entry t (take 1 idx ++ drop 2 idx))).
Proof.
  intros Hsh. unfold torch.unsqueeze. rewrite Hsh.
  rewrite decide_True by (simpl; lia). done.
Qed.

Lemma expand_Some t sizes :
  length (shape t) ≤ length sizes →
  Forall2 (λ s n, s = n ∨ s = 1) (lpad (length sizes) (shape t)) sizes →
  torch.expand t sizes
  = Some (Tensor sizes (λ idx, entry t (torch.bidx (length sizes) (shape t) idx))).
Proof. intros Hl Hf. unfold torch.expand. by rewrite decide_True. Qed.

Lemma repeat_Some t reps :
  length (shape t) ≤ length reps →
  torch.repeat t reps
  = Some (Tensor (zip_with Nat.mul (lpad (length reps) (shape t)) reps)
            (λ idx, entry t (drop (length reps - length (shape t))
                               (zip_with (λ s i, i mod s)
                                  (lpad (length reps) (shape t)) idx)))).
Proof. intros Hl. unfold torch.repeat. by rewrite decide_True. Qed.

Lemma slice_Some t d lo hi n :
  shape t !! d = Some n →
  torch.slice t d lo hi
  = Some (Tensor (<[d := from_option (λ h, h `min` n) n hi - lo `min` n]> (shape t))
            (λ idx, entry t (alter (λ i, lo `min` n + i) d idx))).
Proof. intros Hn. unfold torch.slice. rewrite Hn. done. Qed.

Lemma cat_Some x y dim d nx ny :
  norm_dim (length (shape x)) dim = Some d →
  shape x !! d = Some nx → shape y !! d = Some ny →
  <[d := 0]> (shape x) = <[d := 0]> (shape y) →
  torch.cat x y dim
  = Some (Tensor (<[d := nx + ny]> (shape x))
            (λ idx, match idx !! d with
                    | Some i => if decide (i < nx) then entry x idx
                                else entry y (<[d := i - nx]> idx)
                    | None => entry x idx
                    end)).
Proof.
  intros Hd Hx Hy Hxy. unfold torch.cat. rewrite Hd. bind_step.
  rewrite Hx, Hy. bind_step. by rewrite decide_True.
Qed.

Lemma reshape_Some t sizes :
  numel sizes = numel (shape t) →
  torch.reshape t sizes
  = Some (Tensor sizes (λ idx, entry t (unravel (shape t) (ravel sizes idx)))).
Proof. intros Hn. unfold torch.reshape. by rewrite decide_True. Qed.

Lemma reduce_Some red t dim d :
  norm_dim (length (shape t)) dim = Some d →
  torch.reduce red t dim
  = Some (Tensor (<[d := 1]> (shape t)) (λ idx, red (torch.fibre t d idx))).
Proof. intros Hd. unfold torch.reduce. by rewrite Hd. Qed.

(** An operand with one axis reduced to extent one is broadcast along that
    axis: it is read at index 0 there. *)
Lemma binop_unit_axis f x y d :
  shape y = <[d := 1]> (shape x) →
  ∃ r, torch.binop f x y = Some r ∧ shape r = shape x ∧
    ∀ idx, in_bounds (shape x) idx →
      entry r idx = f (entry x idx) (entry y (<[d := 0]> idx)).
Proof.
  intros Hy. unfold torch.binop, torch.broadcast_shapes.
  rewrite Hy, length_insert, Nat.max_id, lpad_same.
  replace (lpad (length (shape x)) (<[d:=1]> (shape x))) with (<[d:=1]> (shape x))
    by (by rewrite <- (length_insert (shape x) d 1) at 1; rewrite lpad_same).
  rewrite decide_True by apply broadcast_unit_axis_ok.
  rewrite broadcast_unit_axis_shape. bind_step.
  eexists. split; [done|]. split; [done|].
  intros idx Hidx. bind_step. unfold torch.bidx.
  rewrite length_insert, lpad_same, Nat.sub_diag.
  replace (lpad (length (shape x)) (<[d:=1]> (shape x))) with (<[d:=1]> (shape x))
    by (by rewrite <- (length_insert (shape x) d 1) at 1; rewrite lpad_same).
  cbn [drop]. rewrite zip_with_in_bounds by done.
  by rewrite bidx_unit_axis.
Qed.

End torch_facts.

(** ** Batch broadcaster *)

Section broadcaster.
Context {F : Type} `{!Dtype F}.
Implicit Types feat t : tensor F.

Lemma expand_first_unfold feat b rest scale :
  shape feat = b :: rest → 0 < b →
  expand_first feat scale =
    feat_style ←
      (if (scale =? 1)%float then
         torch.expand (style_pair feat b rest) (2 :: b / 2 :: rest)
       else
         rep ← torch.repeat (style_pair feat b rest) [1; b / 2; 1; 1; 1];
         lead ← torch.slice rep 1 0 (Some 1);
         others ← torch.slice rep 1 1 None;
         torch.cat lead (torch.scalar_mul scale others) 1);
    torch.reshape feat_style (b :: rest).
Proof.
  intros Hsh Hb.
  assert (b / 2 < b) by (apply Nat.div_lt; lia).
  unfold expand_first. rewrite Hsh. cbn [lookup list_lookup mbind option_bind tail].
  rewrite (getitem_Some feat b rest 0) by (done || lia). bind_step.
  rewrite (getitem_Some feat b rest (b / 2)) by (done || lia). bind_step.
  rewrite stack_pair_Some by done. bind_step.
  erewrite unsqueeze_1 by done. bind_step. done.
Qed.

Lemma style_pair_entry feat b rest i j idx :
  i < 2 →
  entry (style_pair feat b rest) (i :: j :: idx)
  = entry feat ((if decide (i = 0) then 0 else b / 2) :: idx).
Proof.
  intros Hi. unfold style_pair. cbn [entry]. simpl.
  destruct i as [|[|i]]; simpl; [done|done|lia].
Qed.

Lemma half_double h : 2 * h / 2 = h.
Proof. rewrite Nat.mul_comm. apply Nat.div_mul. lia. Qed.

(** The style element a batch slot reads: slot 0 for the first half of the
    batch, slot [h] for the second. *)
Lemma style_slot h i :
  0 < h → i < 2 * h →
  (if decide (i / h = 0) then 0 else h) = (if decide (i < h) then 0 else h).
Proof.
  intros Hh Hi. destruct (decide (i < h)) as [Hlt|Hge].
  - rewrite Nat.div_small by done. by rewrite decide_True.
  - rewrite decide_False; [done|]. intros Hq.
    apply Nat.div_small_iff in Hq; lia.
Qed.

(** The pure-broadcast branch, taken when [scale == 1] holds. *)
Lemma expand_first_broadcast feat b rest s :
  shape feat = b :: rest → Nat.Even b → 0 < b → (s =? 1)%float = true →
  ∃ r, expand_first feat s = Some r ∧ shape r = shape feat ∧
    (∀ i idx, i < b / 2 → in_bounds rest idx →
       entry r (i :: idx) = entry feat (0 :: idx)) ∧
    (∀ i idx, b / 2 ≤ i < b → in_bounds rest idx →
       entry r (i :: idx) = entry feat (b / 2 :: idx)).
Proof.
  intros Hsh [h Hb] Hpos Hs. assert (Hh : 0 < h) by lia.
  rewrite (expand_first_unfold feat b rest) by done.
  subst b. rewrite half_double, Hs.
  rewrite expand_Some; cycle 1.
  { simpl. lia. }
  { change (shape (style_pair feat (2 * h) rest)) with (2 :: 1 :: rest).
    replace (length (2 :: h :: rest)) with (length (2 :: 1 :: rest)) by done.
    rewrite lpad_same.
    apply Forall2_cons; split; [by left|]. apply Forall2_cons; split; [by right|].
    apply Forall_Forall2_diag, Forall_forall. auto. }
  bind_step.
  rewrite reshape_Some by (bind_step; rewrite !numel_cons; lia).
  bind_step. eexists. split; [done|]. split; [done|].
  assert (Hentry : ∀ i idx, i < 2 * h → in_bounds rest idx →
    entry (style_pair feat (2 * h) rest)
      (torch.bidx (length (2 :: h :: rest)) (shape (style_pair feat (2 * h) rest))
         (unravel (2 :: h :: rest) (ravel (2 * h :: rest) (i :: idx))))
    = entry feat ((if decide (i < h) then 0 else h) :: idx)).
  { intros i idx Hi Hidx. rewrite unravel_split by done.
    unfold torch.bidx.
    change (shape (style_pair feat (2 * h) rest)) with (2 :: 1 :: rest).
    replace (length (2 :: h :: rest)) with (length (2 :: 1 :: rest)) by done.
    rewrite lpad_same, Nat.sub_diag. cbn [drop zip_with].
    rewrite zip_with_in_bounds by done.
    rewrite decide_False by lia. rewrite decide_True by done.
    rewrite style_pair_entry by (apply Nat.Div0.div_lt_upper_bound; lia).
    rewrite half_double. by rewrite style_slot. }
  split; intros i idx Hi Hidx; bind_step; rewrite Hentry by (done || lia).
  - by rewrite decide_True.
  - rewrite decide_False by lia. done.
Qed.

(** C3.  For a tensor whose batch size [b] is even (and not zero, so that
    [t[0]] exists), [expand_first t 1.0] returns a tensor of the shape of
    [t] whose batch elements [0 .. b/2-1] all equal [t[0]] and whose batch
    elements [b/2 .. b-1] all equal [t[b/2]]. *)
Theorem expand_first_unit_scale feat b rest :
  shape feat = b :: rest → Nat.Even b → 0 < b →
  ∃ r, expand_first feat 1 = Some r ∧ shape r = shape feat ∧
    (∀ i idx, i < b / 2 → in_bounds rest idx →
       entry r (i :: idx) = entry feat (0 :: idx)) ∧
    (∀ i idx, b / 2 ≤ i < b → in_bounds rest idx →
       entry r (i :: idx) = entry feat (b / 2 :: idx)).
Proof. intros Hsh Hev Hpos. by apply expand_first_broadcast. Qed.

(** With a scale other than one, on a 4-dimensional tensor: the slots that
    open the two halves of the batch carry their style element as it is, and
    every other slot carries it multiplied by the scale. *)
Lemma expand_first_scaled_eval feat c n d h s :
  shape feat = [2 * h; c; n; d] → 0 < h → (s =? 1)%float = false →
  ∃ r, expand_first feat s = Some r ∧ shape r = shape feat ∧
    ∀ i idx, i < 2 * h → in_bounds [c; n; d] idx →
      entry r (i :: idx)
      = if decide (i = 0 ∨ i = h)
        then entry feat ((if decide (i < h) then 0 else h) :: idx)
        else smul s (entry feat ((if decide (i < h) then 0 else h) :: idx)).
Proof.
  intros Hsh Hh Hs.
  rewrite (expand_first_unfold feat (2 * h) [c; n; d]) by (done || lia).
  rewrite Hs, half_double.
  rewrite repeat_Some by (simpl; lia).
  name_tensor rep Hrep_sh Hrep.
  change (shape (style_pair feat (2 * h) [c; n; d])) with [2; 1; c; n; d] in *.
  change (lpad (length [1; h; 1; 1; 1]) [2; 1; c; n; d]) with [2; 1; c; n; d] in *.
  change (length [1; h; 1; 1; 1] - length [2; 1; c; n; d]) with 0 in *.
  assert (Hrep_sh' : shape rep = [2; h; c; n; d]).
  { rewrite Hrep_sh. cbn [zip_with]. repeat f_equal; lia. }
  clear Hrep_sh.
  erewrite (slice_Some rep 1 0 (Some 1)) by (by rewrite Hrep_sh').
  name_tensor lead Hlead_sh Hlead.
  erewrite (slice_Some rep 1 1 None) by (by rewrite Hrep_sh').
  name_tensor others Hothers_sh Hothers.
  rewrite Hrep_sh' in *. cbn [from_option list_insert insert] in *.
  replace (1 `min` h - 0 `min` h) with 1 in Hlead_sh by lia.
  replace (h - 1 `min` h) with (h - 1) in Hothers_sh by lia.
  replace (0 `min` h) with 0 in Hlead by lia.
  replace (1 `min` h) with 1 in Hothers by lia.
  rewrite (cat_Some lead (torch.scalar_mul s others) 1 1 1 (h - 1));
    [|by rewrite Hlead_sh|by rewrite Hlead_sh
     |by (cbn [torch.scalar_mul shape]; rewrite Hothers_sh)
     |by (cbn [torch.scalar_mul shape]; rewrite Hlead_sh, Hothers_sh)].
  name_tensor joined Hjoined_sh Hjoined.
  rewrite Hlead_sh in Hjoined_sh. cbn [list_insert insert] in Hjoined_sh.
  replace (1 + (h - 1)) with h in Hjoined_sh by lia.
  rewrite reshape_Some by (rewrite Hjoined_sh, !numel_cons; lia).
  eexists. split; [done|]. split; [by rewrite Hsh|].
  intros i idx Hi Hidx. bind_step.
  rewrite Hjoined_sh, unravel_split by done.
  rewrite Hjoined. cbn [lookup list_lookup].
  assert (Hq : i / h < 2) by (apply Nat.Div0.div_lt_upper_bound; lia).
  assert (Hsp : ∀ j, entry rep (i / h :: j :: idx)
                     = entry feat ((if decide (i < h) then 0 else h) :: idx)).
  { intros j. rewrite Hrep.
    change (drop 0 (zip_with (λ s i, i mod s) [2; 1; c; n; d] (i / h :: j :: idx)))
      with ((i / h) mod 2 :: j mod 1 :: zip_with (λ s i, i mod s) [c; n; d] idx).
    rewrite (zip_with_mod_in_bounds [c; n; d]) by done.
    rewrite style_pair_entry by (apply Nat.mod_upper_bound; lia).
    rewrite half_double, (Nat.mod_small (i / h)) by done. by rewrite style_slot. }
  assert (Hm : i mod h < h) by (apply Nat.mod_upper_bound; lia).
  pose proof (Nat.div_mod_eq i h) as Hdm.
  destruct (decide (i mod h < 1)) as [Hz|Hnz].
  - rewrite Hlead. cbn [alter list_alter]. rewrite Hsp.
    destruct (decide (i = 0 ∨ i = h)) as [_|Hne]; [done|].
    destruct Hne. clear Hsp. destruct (i / h) as [|[|q]]; [left|right|]; lia.
  - cbn [torch.scalar_mul entry list_insert insert]. rewrite Hothers.
    cbn [alter list_alter]. rewrite Hsp.
    destruct (decide (i = 0 ∨ i = h)) as [[->| ->]|_]; [| |done]; destruct Hnz.
    + rewrite Nat.Div0.mod_0_l. lia.
    + rewrite Nat.Div0.mod_same. lia.
Qed.


(** With a scale other than one the result still has the shape of the
    input, for every tensor of at most four axes. *)
Lemma expand_first_scaled_shape feat b rest s :
  shape feat = b :: rest → length rest ≤ 3 → Nat.Even b → 0 < b →
  (s =? 1)%float = false →
  ∃ r, expand_first feat s = Some r ∧ shape r = shape feat.
Proof.
  intros Hsh Hlen [h Hb] Hpos Hs.
  rewrite (expand_first_unfold feat b rest) by done.
  subst b. rewrite Hs, half_double.
  assert (Hsp : length (shape (style_pair feat (2 * h) rest)) ≤ 5) by (simpl; lia).
  rewrite repeat_Some by done.
  name_tensor rep Hrep_sh Hrep. clear Hrep.
  assert (Hrep_len : length (shape rep) = 5).
  { rewrite Hrep_sh, length_zip_with, length_lpad by done. done. }
  assert (Hrep_numel : numel (shape rep) = numel (2 * h :: rest)).
  { rewrite Hrep_sh, numel_zip_mul, numel_lpad by (by rewrite length_lpad).
    change (numel [1; h; 1; 1; 1]) with (1 * (h * (1 * (1 * (1 * 1))))).
    change (numel (shape (style_pair feat (2 * h) rest))) with (2 * (1 * numel rest)).
    rewrite numel_cons. lia. }
  destruct (lookup_lt_is_Some_2 (shape rep) 1) as [n Hn]; [lia|].
  rewrite (slice_Some rep 1 0 (Some 1) n Hn).
  name_tensor lead Hlead_sh Hlead. clear Hlead.
  rewrite (slice_Some rep 1 1 None n Hn).
  name_tensor others Hothers_sh Hothers. clear Hothers.
  cbn [from_option] in *.
  rewrite (cat_Some lead (torch.scalar_mul s others) 1 1
             (1 `min` n - 0 `min` n) (n - 1 `min` n)); cycle 1.
  { by rewrite Hlead_sh, length_insert, Hrep_len. }
  { rewrite Hlead_sh. apply list_lookup_insert_eq. lia. }
  { cbn [torch.scalar_mul shape]. rewrite Hothers_sh.
    apply list_lookup_insert_eq. lia. }
  { cbn [torch.scalar_mul shape].
    by rewrite Hlead_sh, Hothers_sh, !list_insert_insert_eq. }
  name_tensor joined Hjoined_sh Hjoined. clear Hjoined.
  assert (Hjoined_sh' : shape joined = shape rep).
  { rewrite Hjoined_sh, Hlead_sh, list_insert_insert_eq.
    apply list_insert_id. rewrite Hn. f_equal. lia. }
  rewrite reshape_Some by (by rewrite Hjoined_sh', Hrep_numel).
  eexists. split; [done|]. by rewrite Hsh.
Qed.

Lemma expand_first_shape feat b rest s :
  shape feat = b :: rest → Nat.Even b → 0 < b →
  (s =? 1)%float = true ∨ length rest ≤ 3 →
  ∃ r, expand_first feat s = Some r ∧ shape r = shape feat.
Proof.
  intros Hsh Hev Hpos Hs. destruct (s =? 1)%float eqn:Heq.
  - destruct (expand_first_broadcast feat b rest s Hsh Hev Hpos Heq)
      as (r & ? & ? & _).
    eauto.
  - destruct Hs as [?|Hlen]; [done|]. by eapply expand_first_scaled_shape.
Qed.

(** On an empty batch there is no element 0: [feat[0]] raises, whatever the
    scale. *)
Theorem expand_first_empty_batch_raises feat rest s :
  shape feat = 0 :: rest → expand_first feat s = None.
Proof.
  intros Hsh. unfold expand_first, torch.getitem. rewrite Hsh.
  cbn [lookup list_lookup mbind option_bind]. by rewrite decide_False by lia.
Qed.

(** On a 3-dimensional tensor (batch, sequence, feature) with a scale other
    than one, [Tensor.repeat] with five counts pads the 4-dimensional pair of
    style elements with a leading axis, so the pair is tiled along the axis
    that holds the two style elements: slot 0 is [t[0]] unscaled and every
    later slot [i] is [s * t[0]] for even [i] and [s * t[b/2]] for odd [i],
    whichever half of the batch it lies in. *)
Theorem expand_first_scaled_rank3 feat b n d s :
  shape feat = [b; n; d] → Nat.Even b → 0 < b → (s =? 1)%float = false →
  ∃ r, expand_first feat s = Some r ∧ shape r = shape feat ∧
    ∀ i idx, i < b → in_bounds [n; d] idx →
      entry r (i :: idx)
      = if decide (i = 0) then entry feat (0 :: idx)
        else smul s (entry feat ((if decide (i mod 2 = 0) then 0 else b / 2) :: idx)).
Proof.
  intros Hsh [h ->] Hpos Hs. assert (Hh : 0 < h) by lia.
  rewrite (expand_first_unfold feat (2 * h) [n; d]) by (done || lia).
  rewrite Hs, half_double.
  rewrite repeat_Some by (simpl; lia).
  name_tensor rep Hrep_sh Hrep.
  change (shape (style_pair feat (2 * h) [n; d])) with [2; 1; n; d] in *.
  change (lpad (length [1; h; 1; 1; 1]) [2; 1; n; d]) with [1; 2; 1; n; d] in *.
  change (length [1; h; 1; 1; 1] - length [2; 1; n; d]) with 1 in *.
  assert (Hrep_sh' : shape rep = [1; 2 * h; 1; n; d]).
  { rewrite Hrep_sh. cbn [zip_with]. repeat f_equal; lia. }
  clear Hrep_sh.
  erewrite (slice_Some rep 1 0 (Some 1)) by (by rewrite Hrep_sh').
  name_tensor lead Hlead_sh Hlead.
  erewrite (slice_Some rep 1 1 None) by (by rewrite Hrep_sh').
  name_tensor others Hothers_sh Hothers.
  rewrite Hrep_sh' in *. cbn [from_option list_insert insert] in *.
  replace (1 `min` (2 * h) - 0 `min` (2 * h)) with 1 in Hlead_sh by lia.
  replace (2 * h - 1 `min` (2 * h)) with (2 * h - 1) in Hothers_sh by lia.
  replace (0 `min` (2 * h)) with 0 in Hlead by lia.
  replace (1 `min` (2 * h)) with 1 in Hothers by lia.
  rewrite (cat_Some lead (torch.scalar_mul s others) 1 1 1 (2 * h - 1));
    [|by rewrite Hlead_sh|by rewrite Hlead_sh
     |by (cbn [torch.scalar_mul shape]; rewrite Hothers_sh)
     |by (cbn [torch.scalar_mul shape]; rewrite Hlead_sh, Hothers_sh)].
  name_tensor joined Hjoined_sh Hjoined.
  rewrite Hlead_sh in Hjoined_sh. cbn [list_insert insert] in Hjoined_sh.
  replace (1 + (2 * h - 1)) with (2 * h) in Hjoined_sh by lia.
  rewrite reshape_Some by (rewrite Hjoined_sh, !numel_cons; lia).
  eexists. split; [done|]. split; [by rewrite Hsh|].
  intros i idx Hi Hidx. bind_step.
  rewrite Hjoined_sh.
  assert (Hun : unravel [1; 2 * h; 1; n; d] (ravel [2 * h; n; d] (i :: idx))
                = 0 :: i :: 0 :: idx).
  { replace (ravel [2 * h; n; d] (i :: idx))
      with (ravel [1; 2 * h; 1; n; d] (0 :: i :: 0 :: idx))
      by (cbn [ravel]; rewrite !numel_cons; lia).
    apply unravel_ravel. rewrite !in_bounds_cons. repeat split; (done || lia). }
  rewrite Hun, Hjoined. cbn [lookup list_lookup].
  assert (Hsp : ∀ j, entry rep (0 :: j :: 0 :: idx)
                     = entry feat ((if decide (j mod 2 = 0) then 0 else h) :: idx)).
  { intros j. rewrite Hrep.
    change (drop 1 (zip_with (λ s i, i mod s) [1; 2; 1; n; d] (0 :: j :: 0 :: idx)))
      with (j mod 2 :: 0 mod 1 :: zip_with (λ s i, i mod s) [n; d] idx).
    rewrite (zip_with_mod_in_bounds [n; d]) by done.
    rewrite style_pair_entry by (apply Nat.mod_upper_bound; lia).
    by rewrite half_double. }
  destruct (decide (i < 1)) as [Hz|Hnz].
  - rewrite Hlead. cbn [alter list_alter]. rewrite Hsp.
    assert (i = 0) as -> by lia. by rewrite !decide_True by done.
  - cbn [torch.scalar_mul entry list_insert insert]. rewrite Hothers.
    cbn [alter list_alter]. rewrite Hsp.
    rewrite (decide_False (P := i = 0)) by lia.
    by replace (1 + (i - 1)) with i by lia.
Qed.
(** Concatenating a style tensor of the shape of [feat] doubles the axis. *)
Lemma concat_first_of_expand feat e dim s :
  expand_first feat s = Some e → shape e = shape feat →
  (- Z.of_nat (length (shape feat)) ≤ dim < Z.of_nat (length (shape feat)))%Z →
  ∃ d n r,
    norm_dim (length (shape feat)) dim = Some d ∧ shape feat !! d = Some n ∧
    concat_first feat dim s = Some r ∧
    shape r = <[d := 2 * n]> (shape feat) ∧
    (∀ idx, in_bounds (shape feat) idx → entry r idx = entry feat idx) ∧
    (∀ idx, in_bounds (shape feat) idx →
       entry r (alter (λ i, n + i) d idx) = entry e idx).
Proof.
  intros He Hesh Hdim.
  destruct (norm_dim_valid _ _ Hdim) as (d & Hd & Hlt).
  destruct (lookup_lt_is_Some_2 (shape feat) d Hlt) as [n Hn].
  exists d, n. unfold concat_first. rewrite He. bind_step.
  rewrite (cat_Some feat e dim d n n) by (done || by rewrite Hesh).
  eexists. split; [done|]. split; [done|]. split; [done|].
  split; [bind_step; by replace (2 * n) with (n + n) by lia|]. split.
  - intros idx Hidx. bind_step.
    destruct (in_bounds_lookup _ _ _ _ Hidx Hn) as (i & -> & Hi).
    by rewrite decide_True.
  - intros idx Hidx. bind_step.
    destruct (in_bounds_lookup _ _ _ _ Hidx Hn) as (i & Hi & Hin).
    rewrite list_lookup_alter_eq, Hi. cbn [fmap option_fmap option_map].
    rewrite decide_False by lia.
    rewrite insert_alter_same. replace (n + i - n) with i by lia.
    by rewrite list_insert_id.
Qed.

(** Along the sequence axis. *)
Lemma concat_first_seq t b rest s :
  shape t = b :: rest → 1 ≤ length rest → Nat.Even b → 0 < b →
  (s =? 1)%float = true ∨ length rest ≤ 3 →
  ∃ r, concat_first t (-2) s = Some r ∧
    shape r = <[seq_axis t := 2 * seq_len t]> (shape t) ∧
    ∀ idx, in_bounds (shape t) idx → entry r idx = entry t idx.
Proof.
  intros Hsh Hlen Hev Hpos Hs.
  destruct (expand_first_shape t b rest s Hsh Hev Hpos Hs) as (e & He & Hesh).
  assert (Hrank : 2 ≤ length (shape t)) by (rewrite Hsh; simpl; lia).
  destruct (concat_first_of_expand t e (-2) s He Hesh)
    as (d & n & r & Hd & Hn & Hr & Hrsh & Hre & _); [lia|].
  rewrite norm_dim_minus_2 in Hd by done. injection Hd as <-.
  exists r. split; [done|]. split; [|done].
  unfold seq_len, seq_axis. by rewrite Hn.
Qed.

(** C4.  For a tensor with an even, non-zero batch size and any axis [dim]
    of it (counted from the front or, negative, from the back),
    [concat_first t dim 1.0] doubles the extent of that axis and leaves every
    other extent alone; its first half along the axis is [t] itself and its
    second half is [expand_first t 1.0]. *)
Theorem concat_first_unit_scale feat b rest dim :
  shape feat = b :: rest → Nat.Even b → 0 < b →
  (- Z.of_nat (length (shape feat)) ≤ dim < Z.of_nat (length (shape feat)))%Z →
  ∃ d n e r,
    norm_dim (length (shape feat)) dim = Some d ∧ shape feat !! d = Some n ∧
    expand_first feat 1 = Some e ∧
    concat_first feat dim 1 = Some r ∧
    shape r = <[d := 2 * n]> (shape feat) ∧
    (∀ idx, in_bounds (shape feat) idx → entry r idx = entry feat idx) ∧
    (∀ idx, in_bounds (shape feat) idx →
       entry r (alter (λ i, n + i) d idx) = entry e idx).
Proof.
  intros Hsh Hev Hpos Hdim.
  destruct (expand_first_broadcast feat b rest 1 Hsh Hev Hpos eq_refl)
    as (e & He & Hesh & _).
  destruct (concat_first_of_expand feat e dim 1 He Hesh Hdim)
    as (d & n & r & Hd & Hn & Hr & Hrest).
  by exists d, n, e, r.
Qed.

End broadcaster.

(** ** Statistics normaliser *)

Section normaliser.
Context {F : Type} `{!Dtype F}.
Implicit Types feat : tensor F.

Lemma calc_mean_std_Some feat eps :
  2 ≤ length (shape feat) →
  let d := length (shape feat) - 2 in
  ∃ mean std,
    calc_mean_std feat eps = Some (mean, std) ∧
    shape mean = <[d := 1]> (shape feat) ∧ shape std = <[d := 1]> (shape feat) ∧
    (∀ idx, entry mean idx = mean_red (torch.fibre feat d idx)) ∧
    (∀ idx, entry std idx = fsqrt (sadd (var_red (torch.fibre feat d idx)) eps)).
Proof.
  intros Hr d. unfold calc_mean_std, torch.var, torch.mean.
  rewrite !(reduce_Some _ feat (-2) d) by (by apply norm_dim_minus_2).
  bind_step. eexists _, _. split; [done|]. done.
Qed.

(** The normaliser, entry by entry. *)
Lemma adain_eval feat b rest :
  shape feat = b :: rest → 2 ≤ length rest → Nat.Even b → 0 < b →
  let d := length (shape feat) - 2 in
  ∃ mean std r,
    calc_mean_std feat eps_default = Some (mean, std) ∧
    shape mean = <[d := 1]> (shape feat) ∧ shape std = <[d := 1]> (shape feat) ∧
    (∀ idx, entry mean idx = mean_red (torch.fibre feat d idx)) ∧
    (∀ idx, entry std idx
            = fsqrt (sadd (var_red (torch.fibre feat d idx)) eps_default)) ∧
    adain feat = Some r ∧ shape r = shape feat ∧
    ∀ i idx, i < b → in_bounds rest idx →
      let own := <[d := 0]> (i :: idx) in
      let style := <[d := 0]> ((if decide (i < b / 2) then 0 else b / 2) :: idx) in
      entry r (i :: idx)
      = fadd (fmul (fdiv (fsub (entry feat (i :: idx)) (entry mean own))
                         (entry std own))
                   (entry std style))
             (entry mean style).
Proof.
  intros Hsh Hlen Hev Hpos d.
  assert (Hrank : 2 ≤ length (shape feat)) by (rewrite Hsh; simpl; lia).
  destruct (calc_mean_std_Some feat eps_default Hrank)
    as (mean & std & Hcalc & Hmsh & Hssh & Hme & Hse).
  fold d in Hmsh, Hssh, Hme, Hse.
  exists mean, std. unfold adain, torch.sub, torch.div, torch.mul, torch.add.
  rewrite Hcalc. bind_step.
  assert (Hd : d = S (length rest - 2)) by (unfold d; rewrite Hsh; simpl; lia).
  assert (Hmsh' : shape mean = b :: <[length rest - 2 := 1]> rest)
    by (by rewrite Hmsh, Hd, Hsh).
  assert (Hssh' : shape std = b :: <[length rest - 2 := 1]> rest)
    by (by rewrite Hssh, Hd, Hsh).
  destruct (expand_first_broadcast mean b _ 1 Hmsh' Hev Hpos eq_refl)
    as (smean & -> & Hsmsh & Hsm1 & Hsm2).
  destruct (expand_first_broadcast std b _ 1 Hssh' Hev Hpos eq_refl)
    as (sstd & -> & Hsssh & Hss1 & Hss2).
  bind_step.
  destruct (binop_unit_axis fsub feat mean d Hmsh) as (centred & -> & Hcsh & Hce).
  bind_step.
  destruct (binop_unit_axis fdiv centred std d) as (normed & -> & Hnsh & Hne);
    [by rewrite Hcsh|].
  bind_step.
  destruct (binop_unit_axis fmul normed sstd d) as (scaled & -> & Hscsh & Hsce);
    [by rewrite Hnsh, Hcsh, Hsssh|].
  bind_step.
  destruct (binop_unit_axis fadd scaled smean d) as (r & -> & Hrsh & Hre);
    [by rewrite Hscsh, Hnsh, Hcsh, Hsmsh|].
  exists r. do 6 (split; [done|]). split; [congruence|].
  intros i idx Hi Hidx.
  assert (Hb : in_bounds (shape feat) (i :: idx))
    by (rewrite Hsh; by apply in_bounds_cons).
  rewrite Hre by congruence. rewrite Hsce by congruence.
  rewrite Hne by congruence. rewrite Hce by done.
  rewrite Hd. cbn [list_insert insert].
  assert (Hidx' : in_bounds (<[length rest - 2 := 1]> rest)
                            (<[length rest - 2 := 0]> idx))
    by (apply Forall2_insert; [done|lia]).
  destruct (decide (i < b / 2)) as [Hlt|Hge].
  - by rewrite Hsm1, Hss1 by done.
  - by rewrite Hsm2, Hss2 by (done || lia).
Qed.

(** C5.  For a tensor with an even, non-zero batch size [b] and a sequence
    axis of its own (the second-to-last axis, [d], is not the batch axis):
    [calc_mean_std] reduces over axis [d] and keeps it with extent one, the
    mean being the mean of the entries along [d] and
    [std = sqrt(var + 1e-5)]; and [adain t] has the shape of [t] with
    [(t - mean) / std * style_std + style_mean] at every index, where
    [mean] and [std] are read at the index's own batch element and
    [style_mean], [style_std] are [mean] and [std] at batch element [0] for
    the first half of the batch and at batch element [b/2] for the second. *)
Theorem adain_formula feat b rest :
  shape feat = b :: rest → 2 ≤ length rest → Nat.Even b → 0 < b →
  let d := length (shape feat) - 2 in
  ∃ mean std r,
    calc_mean_std feat eps_default = Some (mean, std) ∧
    shape mean = <[d := 1]> (shape feat) ∧ shape std = <[d := 1]> (shape feat) ∧
    (∀ idx, entry mean idx = mean_red (torch.fibre feat d idx)) ∧
    (∀ idx, entry std idx
            = fsqrt (sadd (var_red (torch.fibre feat d idx)) eps_default)) ∧
    adain feat = Some r ∧ shape r = shape feat ∧
    ∀ i idx, i < b → in_bounds rest idx →
      let own := <[d := 0]> (i :: idx) in
      let style := <[d := 0]> ((if decide (i < b / 2) then 0 else b / 2) :: idx) in
      entry r (i :: idx)
      = fadd (fmul (fdiv (fsub (entry feat (i :: idx)) (entry mean own))
                         (entry std own))
                   (entry std style))
             (entry mean style).
Proof. apply adain_eval. Qed.

End normaliser.

(** ** Shared attention processor *)

Section processor.
Context {F : Type} `{!Dtype F}.
Implicit Types q k v t : tensor F.

Lemma adain_if_shape (flag : bool) t :
  batched t →
  ∃ r, (if flag then adain t else Some t) = Some r ∧ shape r = shape t.
Proof.
  intros (b & rest & Hsh & Hev & Hpos & Hlen). destruct flag; [|eauto].
  destruct (adain_eval t b rest Hsh Hlen Hev Hpos)
    as (_ & _ & r & _ & _ & _ & _ & _ & ? & ? & _).
  eauto.
Qed.

(** C6.  On batched [q], [k], [v] (and, when the key scale is not one, a key
    of at most four axes, which is what [Tensor.repeat] with five counts
    accepts), the processor returns [(q1, k2, v2)] where [q1], [k1], [v1] are
    [adain] of [q], [k], [v] where the flag is set and the input itself
    where it is not; with [share_attention] set, [k2] is [k1] with its style
    tensor concatenated along the sequence axis at the configured scale and
    [v2] is [v1] with its style tensor concatenated at scale [1.0]; the
    query keeps its shape, and the key and the value keep theirs but for the
    sequence length, which is doubled.  Without [share_attention] the key
    and the value are [k1] and [v1]. *)
Theorem shared_attention_call {E} (self : SharedAttentionProcessor F) q k v
    (extra_options : E) :
  batched q → batched k → batched v →
  (scale self =? 1)%float = true ∨ length (shape k) ≤ 4 →
  ∃ q1 k1 v1 k2 v2,
    (if adain_queries (args self) then adain q else Some q) = Some q1 ∧
    (if adain_keys (args self) then adain k else Some k) = Some k1 ∧
    (if adain_values (args self) then adain v else Some v) = Some v1 ∧
    (if share_attention (args self)
     then concat_first k1 (-2) (scale self) = Some k2 ∧
          concat_first v1 (-2) 1 = Some v2
     else k2 = k1 ∧ v2 = v1) ∧
    SharedAttentionProcessor_call self q k v extra_options = Some (q1, k2, v2) ∧
    shape q1 = shape q ∧
    (share_attention (args self) = true →
       shape k2 = <[seq_axis k := 2 * seq_len k]> (shape k) ∧
       shape v2 = <[seq_axis v := 2 * seq_len v]> (shape v)) ∧
    (share_attention (args self) = false →
       shape k2 = shape k ∧ shape v2 = shape v).
Proof.
  intros Hq Hk Hv Hs.
  destruct (adain_if_shape (adain_queries (args self)) q Hq) as (q1 & Hq1 & Hq1sh).
  destruct (adain_if_shape (adain_keys (args self)) k Hk) as (k1 & Hk1 & Hk1sh).
  destruct (adain_if_shape (adain_values (args self)) v Hv) as (v1 & Hv1 & Hv1sh).
  exists q1, k1, v1. unfold SharedAttentionProcessor_call.
  rewrite Hq1, Hk1, Hv1. bind_step.
  destruct (share_attention (args self)).
  - destruct Hk as (bk & rk & Hksh & Hkev & Hkpos & Hklen).
    destruct Hv as (bv & rv & Hvsh & Hvev & Hvpos & Hvlen).
    destruct (concat_first_seq k1 bk rk (scale self)) as (k2 & Hk2 & Hk2sh & _);
      [congruence|lia|done|done| |].
    { destruct Hs as [?|Hl]; [by left|right]. rewrite Hksh in Hl. simpl in Hl. lia. }
    destruct (concat_first_seq v1 bv rv 1) as (v2 & Hv2 & Hv2sh & _);
      [congruence|lia|done|done|by left|].
    exists k2, v2. rewrite Hk2, Hv2. bind_step.
    do 5 (split; [done|]). split; [done|]. split; [|done].
    intros _. rewrite Hk2sh, Hv2sh. unfold seq_len, seq_axis.
    by rewrite Hk1sh, Hv1sh.
  - exists k1, v1. bind_step. do 5 (split; [done|]). split; [done|]. split; [done|].
    done.
Qed.

(** C9.  Two processors whose configurations agree on the four boolean
    fields (and that hold the same key scale) return the same result on
    every input: [shared_score_shift] and [only_self_level] are never read. *)
Theorem score_shift_and_self_level_unused {E}
    (self1 self2 : SharedAttentionProcessor F) q k v (extra_options : E) :
  share_attention (args self1) = share_attention (args self2) →
  adain_queries (args self1) = adain_queries (args self2) →
  adain_keys (args self1) = adain_keys (args self2) →
  adain_values (args self1) = adain_values (args self2) →
  scale self1 = scale self2 →
  SharedAttentionProcessor_call self1 q k v extra_options
  = SharedAttentionProcessor_call self2 q k v extra_options.
Proof.
  intros Hsa Haq Hak Hav Hsc. unfold SharedAttentionProcessor_call.
  by rewrite Hsa, Haq, Hak, Hav, Hsc.
Qed.

(** ** Attention dispatch *)

(** C1, on the code.  An absent mask goes to the unmasked kernel.  A mask
    that is present but false under Python's truth test goes there too: an
    empty list does, and so does a one-element tensor whose element is
    zero.  A tensor mask of no element or of several makes the truth test
    itself raise, so that neither kernel is called. *)
Theorem sdpa_truth_test q k v (heads : Z) :
  sdpa q k v None heads = Some (optimized_attention q k v heads) ∧
  sdpa q k v (Some (PyList [])) heads = Some (optimized_attention q k v heads) ∧
  (∀ f, nonzero (f [0]) = false →
        sdpa q k v (Some (PyTensor (Tensor [1] f))) heads
        = Some (optimized_attention q k v heads)) ∧
  (∀ f, sdpa q k v (Some (PyTensor (Tensor [0] f))) heads = None) ∧
  (∀ n m f, sdpa q k v (Some (PyTensor (Tensor [S (S n); S m] f))) heads = None).
Proof.
  split; [done|]. split; [done|]. split; [|split].
  - intros f Hf. unfold sdpa, truth, tensor_bool. cbn [shape entry].
    rewrite decide_True by done. bind_step.
    change (unravel [1] 0) with [0]. by rewrite Hf.
  - done.
  - intros n m f. unfold sdpa, truth, tensor_bool. cbn [shape].
    rewrite decide_False; [done|]. rewrite !numel_cons. simpl. lia.
Qed.

End processor.

(** ** Layer-tree walker *)

Lemma nn_module_forall_ind (P : nn_module → Prop) :
  (∀ self kind children, Forall P children → P (Mod self kind children)) →
  ∀ m, P m.
Proof.
  intros H. fix IH 1. intros [self kind children]. apply H.
  induction children as [|c cs IHcs]; constructor; [apply IH|apply IHcs].
Qed.

Lemma dict_append_group d g0 l0 x :
  d !! "group" = Some g0 → d !! "layer" = Some l0 →
  ∃ d', dict_append "group" x d = Some d' ∧ walked d d' [x] [].
Proof.
  intros Hg Hl. unfold dict_append. rewrite Hg. bind_step.
  eexists. split; [done|]. exists g0, l0.
  rewrite lookup_insert_eq, lookup_insert_ne, Hl, app_nil_r by done.
  repeat split; try done. intros key Hk _. by rewrite lookup_insert_ne.
Qed.

Lemma dict_append_layer d g0 l0 x :
  d !! "group" = Some g0 → d !! "layer" = Some l0 →
  ∃ d', dict_append "layer" x d = Some d' ∧ walked d d' [] [x].
Proof.
  intros Hg Hl. unfold dict_append. rewrite Hl. bind_step.
  eexists. split; [done|]. exists g0, l0.
  rewrite lookup_insert_eq, lookup_insert_ne, Hg, app_nil_r by done.
  repeat split; try done. intros key _ Hk. by rewrite lookup_insert_ne.
Qed.

Lemma walked_refl d g0 l0 :
  d !! "group" = Some g0 → d !! "layer" = Some l0 → walked d d [] [].
Proof. intros Hg Hl. exists g0, l0. by rewrite !app_nil_r. Qed.

Lemma walked_trans d1 d2 d3 g1 l1 g2 l2 :
  walked d1 d2 g1 l1 → walked d2 d3 g2 l2 → walked d1 d3 (g1 ++ g2) (l1 ++ l2).
Proof.
  intros (g0 & l0 & Hg & Hl & Hg' & Hl' & Hk)
         (g0' & l0' & Hg2 & Hl2 & Hg2' & Hl2' & Hk2).
  exists g0, l0. rewrite Hg' in Hg2. rewrite Hl' in Hl2.
  injection Hg2 as <-. injection Hl2 as <-.
  rewrite !app_assoc. repeat split; try done.
  intros key ? ?. by rewrite Hk2, Hk.
Qed.

Lemma walked_keys d d' g l :
  walked d d' g l → ∃ g1 l1, d' !! "group" = Some g1 ∧ d' !! "layer" = Some l1.
Proof. intros (g0 & l0 & _ & _ & ? & ? & _). eauto. Qed.

(** On a dictionary that has both keys the walk succeeds and records what
    [recorded_group] and [recorded_layer] list, in that order. *)
Lemma get_norm_layers_walked layer d sl sg g0 l0 :
  d !! "group" = Some g0 → d !! "layer" = Some l0 →
  ∃ d', get_norm_layers layer d sl sg = Some d' ∧
        walked d d' (recorded_group sg layer) (recorded_layer sl sg layer).
Proof.
  revert d g0 l0.
  induction layer as [self kind children IH] using nn_module_forall_ind.
  intros d g0 l0 Hg Hl. cbn [get_norm_layers recorded_group recorded_layer].
  assert (∃ d1, (if isinstance_LayerNorm kind && sl
                 then dict_append "layer" self d else Some d) = Some d1
                ∧ walked d d1 [] (if isinstance_LayerNorm kind && sl
                                  then [self] else []))
    as (d1 & -> & Hw1).
  { destruct (isinstance_LayerNorm kind && sl).
    - by eapply dict_append_layer.
    - eexists. split; [done|]. by eapply walked_refl. }
  bind_step. destruct (walked_keys _ _ _ _ Hw1) as (g1 & l1 & Hg1 & Hl1).
  destruct (isinstance_GroupNorm kind && sg).
  - destruct (dict_append_group d1 g1 l1 self Hg1 Hl1) as (d2 & -> & Hw2).
    eexists. split; [done|]. exact (walked_trans _ _ _ _ _ _ _ Hw1 Hw2).
  - assert (∀ d1 g1 l1, d1 !! "group" = Some g1 → d1 !! "layer" = Some l1 →
      ∃ d2, for_each (λ c d, get_norm_layers c d sl sg) children d1 = Some d2 ∧
            walked d1 d2 (flat_map (recorded_group sg) children)
                         (flat_map (recorded_layer sl sg) children)) as Hloop.
    { clear -IH. induction IH as [|c cs Hc _ IHcs]; intros d1 g1 l1 Hg1 Hl1.
      - eexists. split; [done|]. by eapply walked_refl.
      - cbn [for_each flat_map].
        destruct (Hc d1 g1 l1 Hg1 Hl1) as (d2 & -> & Hw2). bind_step.
        destruct (walked_keys _ _ _ _ Hw2) as (g2 & l2 & Hg2 & Hl2).
        destruct (IHcs d2 g2 l2 Hg2 Hl2) as (d3 & Hd3 & Hw3).
        exists d3. split; [done|]. by eapply walked_trans. }
    destruct (Hloop d1 g1 l1 Hg1 Hl1) as (d2 & -> & Hw2).
    eexists. split; [done|]. exact (walked_trans _ _ _ _ _ _ _ Hw1 Hw2).
Qed.

(** C7.  On every module tree (and a dictionary with both keys) the walk
    returns, and:
    - a group-norm node met with group sharing on is recorded and ends the
      walk of its subtree: nothing of its children is recorded, whatever
      they are;
    - a layer-norm node is recorded when layer sharing is on, and its
      children are walked either way;
    - a group-norm node met with group sharing off is not recorded and its
      children are walked;
    - any other node passes the walk on to its children. *)
Theorem get_norm_layers_stops_below_group_norm d sl sg g0 l0 :
  d !! "group" = Some g0 → d !! "layer" = Some l0 →
  (∀ layer, ∃ d', get_norm_layers layer d sl sg = Some d' ∧
      walked d d' (recorded_group sg layer) (recorded_layer sl sg layer)) ∧
  (∀ self children, sg = true →
     ∃ d', get_norm_layers (Mod self GroupNorm children) d sl sg = Some d' ∧
           walked d d' [self] []) ∧
  (∀ self children,
     ∃ d', get_norm_layers (Mod self LayerNorm children) d sl sg = Some d' ∧
           walked d d' (flat_map (recorded_group sg) children)
             ((if sl then [self] else [])
              ++ flat_map (recorded_layer sl sg) children)) ∧
  (∀ self children, sg = false →
     ∃ d', get_norm_layers (Mod self GroupNorm children) d sl sg = Some d' ∧
           walked d d' (flat_map (recorded_group sg) children)
             (flat_map (recorded_layer sl sg) children)) ∧
  (∀ self children,
     ∃ d', get_norm_layers (Mod self OtherModule children) d sl sg = Some d' ∧
           walked d d' (flat_map (recorded_group sg) children)
             (flat_map (recorded_layer sl sg) children)).
Proof.
  intros Hg Hl. split; [|split; [|split; [|split]]].
  - intros layer. by eapply get_norm_layers_walked.
  - intros self children ->.
    exact (get_norm_layers_walked (Mod self GroupNorm children) d sl true g0 l0 Hg Hl).
  - intros self children.
    exact (get_norm_layers_walked (Mod self LayerNorm children) d sl sg g0 l0 Hg Hl).
  - intros self children ->.
    exact (get_norm_layers_walked (Mod self GroupNorm children) d sl false g0 l0 Hg Hl).
  - intros self children.
    exact (get_norm_layers_walked (Mod self OtherModule children) d sl sg g0 l0 Hg Hl).
Qed.

(** ** Shared normalisation wrapper *)

Section wrapper_heap.
Implicit Types heap : gmap nat (gmap string forward_fn).

Lemma instance_dict_setattr_eq heap l n f :
  instance_dict (setattr heap l n f) l = <[n := f]> (instance_dict heap l).
Proof. unfold instance_dict at 1, setattr. by rewrite lookup_insert_eq. Qed.

Lemma instance_dict_setattr_ne heap l l' n f :
  l' ≠ l → instance_dict (setattr heap l n f) l' = instance_dict heap l'.
Proof. intros Hne. unfold instance_dict, setattr. by rewrite lookup_insert_ne. Qed.

Lemma instance_dict_wrapped_eq heap l :
  instance_dict (wrapped heap l) l
  = <["forward" := forward_ (cached_original heap l)]>
      (<["orig_forward" := cached_original heap l]> (instance_dict heap l)).
Proof. unfold instance_dict at 1, wrapped. by rewrite lookup_insert_eq. Qed.

Lemma wrapped_lookup_ne heap l l' : l' ≠ l → wrapped heap l !! l' = heap !! l'.
Proof. intros Hne. unfold wrapped. by rewrite lookup_insert_ne. Qed.

Lemma cached_original_wrapped heap l :
  cached_original (wrapped heap l) l = cached_original heap l.
Proof.
  unfold cached_original at 1. rewrite instance_dict_wrapped_eq.
  by rewrite lookup_insert_ne, lookup_insert_eq.
Qed.

Lemma wrapped_idemp heap l : wrapped (wrapped heap l) l = wrapped heap l.
Proof.
  unfold wrapped at 1. rewrite cached_original_wrapped, instance_dict_wrapped_eq.
  unfold wrapped. rewrite insert_insert_eq. f_equal.
  apply map_eq. intros key.
  destruct (decide (key = "forward")) as [->|Hf].
  { by rewrite !lookup_insert_eq. }
  rewrite !(lookup_insert_ne _ "forward") by done.
  destruct (decide (key = "orig_forward")) as [->|Ho].
  { by rewrite !lookup_insert_eq. }
  rewrite !(lookup_insert_ne _ "orig_forward") by done.
  by rewrite !lookup_insert_ne by done.
Qed.

Lemma register_norm_forward_wrapped heap l :
  register_norm_forward heap l = Some (wrapped heap l, l).
Proof.
  unfold register_norm_forward, hasattr, getattr, wrapped, cached_original.
  destruct (instance_dict heap l !! "orig_forward") as [o|] eqn:Ho.
  - cbn [negb mbind option_bind]. rewrite Ho. cbn [mbind option_bind].
    unfold setattr. rewrite (insert_id (instance_dict heap l) "orig_forward" o) by done.
    done.
  - rewrite decide_False by done. cbn [negb mbind option_bind].
    rewrite decide_True by done.
    assert (Hf : match instance_dict heap l !! "forward" with
                 | Some f => Some f
                 | None => Some (class_forward l)
                 end = Some (default (class_forward l) (instance_dict heap l !! "forward")))
      by (by destruct (instance_dict heap l !! "forward")).
    rewrite Hf. cbn [mbind option_bind].
    rewrite instance_dict_setattr_eq, lookup_insert_eq. cbn [mbind option_bind].
    unfold setattr at 1. rewrite instance_dict_setattr_eq.
    unfold setattr. by rewrite insert_insert_eq.
Qed.

(** Wrapping a list of layers wraps each of them once, whatever the list
    repeats, and touches no other object. *)
Lemma register_each_wrapped heap ls :
  register_each heap ls = Some (foldl wrapped heap ls, ls).
Proof.
  revert heap. induction ls as [|l ls IH]; intros heap; [done|].
  cbn [register_each foldl]. rewrite register_norm_forward_wrapped.
  cbn [mbind option_bind]. rewrite IH. done.
Qed.

Lemma foldl_wrapped_notin heap ls l :
  l ∉ ls → foldl wrapped heap ls !! l = heap !! l.
Proof.
  revert heap. induction ls as [|a ls IH]; intros heap Hl; [done|].
  apply not_elem_of_cons in Hl as [Hne Hl]. cbn [foldl].
  rewrite IH by done. by apply wrapped_lookup_ne.
Qed.

Lemma instance_dict_wrapped_ne heap l l' :
  l' ≠ l → instance_dict (wrapped heap l) l' = instance_dict heap l'.
Proof. intros Hne. unfold instance_dict. by rewrite wrapped_lookup_ne. Qed.

Lemma instance_dict_wrapped_ext heap heap' l :
  instance_dict heap l = instance_dict heap' l →
  instance_dict (wrapped heap l) l = instance_dict (wrapped heap' l) l.
Proof.
  intros He. rewrite !instance_dict_wrapped_eq. unfold cached_original.
  by rewrite He.
Qed.

Lemma foldl_wrapped_in heap ls l :
  l ∈ ls →
  instance_dict (foldl wrapped heap ls) l = instance_dict (wrapped heap l) l.
Proof.
  revert heap. induction ls as [|a ls IH]; intros heap Hl; [by apply elem_of_nil in Hl|].
  cbn [foldl]. destruct (decide (l ∈ ls)) as [Hin|Hnotin].
  - rewrite IH by done. destruct (decide (a = l)) as [->|Hne].
    + by rewrite wrapped_idemp.
    + apply instance_dict_wrapped_ext. by apply instance_dict_wrapped_ne.
  - apply elem_of_cons in Hl as [->|?]; [|done].
    unfold instance_dict at 1. by rewrite foldl_wrapped_notin.
Qed.


End wrapper_heap.

Section wrapper.
Context {F : Type} `{!Dtype F}.
Implicit Types t x y : tensor F.

Lemma size_seq x : 2 ≤ length (shape x) → torch.size x (-2) = Some (seq_len x).
Proof.
  intros Hr. unfold torch.size. rewrite norm_dim_minus_2 by done. bind_step.
  unfold seq_len, seq_axis.
  destruct (lookup_lt_is_Some_2 (shape x) (length (shape x) - 2)) as [n ->]; [lia|done].
Qed.

Lemma slice_seq_half y0 sh d n :
  shape y0 = <[d := 2 * n]> sh → d = length sh - 2 → 2 ≤ length sh →
  sh !! d = Some n →
  ∃ y, torch.slice_seq y0 n = Some y ∧ shape y = sh ∧
       ∀ idx, entry y idx = entry y0 idx.
Proof.
  intros Hy0 Hd Hr Hn. unfold torch.slice_seq.
  rewrite Hy0, length_insert, decide_True, <- Hd by done.
  erewrite slice_Some; cycle 1.
  { rewrite Hy0. apply list_lookup_insert_eq. lia. }
  eexists. split; [done|]. bind_step. split.
  - rewrite Hy0, list_insert_insert_eq. cbn [from_option].
    apply list_insert_id. rewrite Hn. f_equal. lia.
  - intros idx. f_equal. apply list_alter_id. intros i. lia.
Qed.

Lemma forward_wrapper_eval native orig x b rest :
  shape x = b :: rest → 1 ≤ length rest → Nat.Even b → 0 < b →
  (∀ w, shape w = <[seq_axis x := 2 * seq_len x]> (shape x) →
        ∃ y0, call_forward native orig w = Some y0 ∧ shape y0 = shape w) →
  ∃ w y0 y,
    concat_first x (-2) 1 = Some w ∧
    shape w = <[seq_axis x := 2 * seq_len x]> (shape x) ∧
    call_forward native orig w = Some y0 ∧
    torch.slice_seq y0 (seq_len x) = Some y ∧
    call_forward native (forward_ orig) x = Some y ∧
    shape y = shape x ∧
    ∀ idx, entry y idx = entry y0 idx.
Proof.
  intros Hsh Hlen Hev Hpos Horig.
  assert (Hr : 2 ≤ length (shape x)) by (rewrite Hsh; simpl; lia).
  destruct (concat_first_seq x b rest 1 Hsh Hlen Hev Hpos) as (w & Hw & Hwsh & _);
    [by left|].
  destruct (Horig w Hwsh) as (y0 & Hy0 & Hy0sh).
  destruct (slice_seq_half y0 (shape x) (seq_axis x) (seq_len x))
    as (y & Hy & Hysh & Hye); [congruence|done|done| |].
  { unfold seq_len, seq_axis.
    destruct (lookup_lt_is_Some_2 (shape x) (length (shape x) - 2)) as [n ->]; [lia|done]. }
  exists w, y0, y. cbn [call_forward]. rewrite size_seq, Hw by done. bind_step.
  rewrite Hy0. bind_step. by rewrite Hy.
Qed.


End wrapper.

(** ** The patch *)

Section patch_facts.
Context {F : Type}.
Variable clone_model : nn_module → nn_module.

End patch_facts.

(** ** Concrete runs *)

(** Scale 0.5 on four batch elements: slots 0 and 2 carry [t[0]] and [t[2]],
    slots 1 and 3 carry half of them. *)
Example expand_first_scaled_run :
  to_list <$> expand_first sample_batch 0.5
  = Some [1; 2; 0.5; 1; 5; 6; 2.5; 3]%float.
Proof. vm_compute. reflexivity. Qed.

Example expand_first_unit_run :
  to_list <$> expand_first sample_batch 1
  = Some [1; 2; 1; 2; 5; 6; 5; 6]%float.
Proof. vm_compute. reflexivity. Qed.

(** Scale 0.5 on a 3-dimensional tensor: the slots alternate between the
    two style elements. *)
Example expand_first_scaled_rank3_run :
  to_list <$> expand_first sample_seq 0.5
  = Some [1; 2; 2.5; 3; 0.5; 1; 2.5; 3]%float.
Proof. vm_compute. reflexivity. Qed.

Example concat_first_run :
  (λ r, (shape r, to_list r)) <$> concat_first sample_pair (-2) 1
  = Some ([2; 1; 2; 1], [1; 1; 3; 3]%float).
Proof. vm_compute. reflexivity. Qed.

(** The toy tree of the specification: the group-norm is recorded, its
    layer-norm child is not, the sibling layer-norm is. *)
Example get_norm_layers_run :
  get_norm_layers sample_tree (<["group" := []]> (<["layer" := []]> ∅)) true true
  = Some (<["group" := [1]]> (<["layer" := [3]]> ∅)).
Proof. vm_compute. reflexivity. Qed.

(** With group sharing off the walk goes below the group-norm. *)
Example get_norm_layers_layer_only_run :
  get_norm_layers sample_tree (<["group" := []]> (<["layer" := []]> ∅)) true false
  = Some (<["group" := []]> (<["layer" := [2; 3]]> ∅)).
Proof. vm_compute. reflexivity. Qed.

(** A present mask of one zero element is sent to the unmasked kernel, and a
    mask of several elements stops the dispatch with an error. *)
Example sdpa_zero_mask_run :
  sdpa sample_seq sample_seq sample_seq
    (Some (PyTensor (tensor_of_list [1] [0]%float))) 8
  = Some (optimized_attention sample_seq sample_seq sample_seq 8).
Proof. reflexivity. Qed.

Example sdpa_full_mask_run :
  sdpa sample_seq sample_seq sample_seq
    (Some (PyTensor (tensor_of_list [2; 2] [0; 0; 0; 0]%float))) 8
  = None.
Proof. reflexivity. Qed.

(** A wrapped layer whose own computation is the identity: the wrapper
    widens, delegates and truncates back to the input. *)
Example forward_wrapper_run :
  (λ y, (shape y, to_list y))
    <$> call_forward (λ _ x, Some x) (forward_ (class_forward 1)) sample_seq
  = Some ([4; 2; 1], [1; 2; 3; 4; 5; 6; 7; 8]%float).
Proof. vm_compute. reflexivity. Qed.

(** Wrapping twice: one cached original, one wrapper around it. *)
Example register_twice_run :
  (heap1 ← fst <$> register_norm_forward ∅ 1;
   fst <$> register_norm_forward heap1 1)
  = Some {[ 1 := <["forward" := forward_ (class_forward 1)]>
                   (<["orig_forward" := class_forward 1]> ∅) ]}.
Proof. vm_compute. reflexivity. Qed.

(** ** Witnesses *)

Lemma expand_first_unit_scale_witness :
  shape sample_seq = 4 :: [2; 1] ∧ Nat.Even 4 ∧ 0 < 4 ∧
  ∃ r, expand_first sample_seq 1 = Some r ∧ shape r = shape sample_seq ∧
    (∀ i idx, i < 4 / 2 → in_bounds [2; 1] idx →
       entry r (i :: idx) = entry sample_seq (0 :: idx)) ∧
    (∀ i idx, 4 / 2 ≤ i < 4 → in_bounds [2; 1] idx →
       entry r (i :: idx) = entry sample_seq (4 / 2 :: idx)).
Proof.
  split; [reflexivity|]. split; [by exists 2|]. split; [lia|].
  apply (expand_first_unit_scale sample_seq 4 [2; 1]); [reflexivity|by exists 2|lia].
Defined.



Lemma concat_first_unit_scale_witness :
  ∃ d n e r,
    norm_dim (length (shape sample_seq)) (-2) = Some d ∧
    shape sample_seq !! d = Some n ∧
    expand_first sample_seq 1 = Some e ∧
    concat_first sample_seq (-2) 1 = Some r ∧
    shape r = <[d := 2 * n]> (shape sample_seq) ∧
    (∀ idx, in_bounds (shape sample_seq) idx → entry r idx = entry sample_seq idx) ∧
    (∀ idx, in_bounds (shape sample_seq) idx →
       entry r (alter (λ i, n + i) d idx) = entry e idx).
Proof.
  apply (concat_first_unit_scale sample_seq 4 [2; 1] (-2));
    [reflexivity|by exists 2|lia|simpl; lia].
Defined.

Lemma adain_formula_witness :
  ∃ mean std r,
    calc_mean_std sample_seq eps_default = Some (mean, std) ∧
    shape mean = [4; 1; 1] ∧ shape std = [4; 1; 1] ∧
    (∀ idx, entry mean idx = mean_red (torch.fibre sample_seq 1 idx)) ∧
    (∀ idx, entry std idx
            = fsqrt (sadd (var_red (torch.fibre sample_seq 1 idx)) eps_default)) ∧
    adain sample_seq = Some r ∧ shape r = shape sample_seq ∧
    ∀ i idx, i < 4 → in_bounds [2; 1] idx →
      entry r (i :: idx)
      = fadd (fmul (fdiv (fsub (entry sample_seq (i :: idx))
                               (entry mean (<[1 := 0]> (i :: idx))))
                         (entry std (<[1 := 0]> (i :: idx))))
                   (entry std (<[1 := 0]> ((if decide (i < 4 / 2) then 0 else 4 / 2) :: idx))))
             (entry mean (<[1 := 0]> ((if decide (i < 4 / 2) then 0 else 4 / 2) :: idx))).
Proof.
  apply (adain_formula sample_seq 4 [2; 1]); [reflexivity|simpl; lia|by exists 2|lia].
Defined.

Lemma batched_sample_seq : batched sample_seq.
Proof. exists 4, [2; 1]. split; [reflexivity|]. split; [by exists 2|]. simpl. lia. Defined.

Lemma shared_attention_call_witness :
  ∃ q1 k1 v1 k2 v2,
    adain sample_seq = Some q1 ∧ adain sample_seq = Some k1 ∧ Some sample_seq = Some v1 ∧
    (concat_first k1 (-2) 0.5 = Some k2 ∧ concat_first v1 (-2) 1 = Some v2) ∧
    SharedAttentionProcessor_call sample_processor sample_seq sample_seq sample_seq tt
    = Some (q1, k2, v2) ∧
    shape q1 = [4; 2; 1] ∧
    (true = true → shape k2 = [4; 4; 1] ∧ shape v2 = [4; 4; 1]) ∧
    (true = false → shape k2 = [4; 2; 1] ∧ shape v2 = [4; 2; 1]).
Proof.
  apply (shared_attention_call sample_processor sample_seq sample_seq sample_seq tt
           batched_sample_seq batched_sample_seq batched_sample_seq).
  right. simpl. lia.
Defined.

Lemma get_norm_layers_witness :
  ∃ d', get_norm_layers sample_tree (<["group" := []]> (<["layer" := []]> ∅)) true true
        = Some d' ∧
        walked (<["group" := []]> (<["layer" := []]> ∅)) d' [1] [3].
Proof.
  apply (get_norm_layers_stops_below_group_norm
           (<["group" := []]> (<["layer" := []]> ∅)) true true [] []); reflexivity.
Defined.

Lemma score_shift_and_self_level_unused_witness :
  SharedAttentionProcessor_call
    (SharedAttentionProcessor_init
       {| share_attention := true; adain_queries := true; adain_keys := true;
          adain_values := false; shared_score_shift := 0; only_self_level := 0 |}
       0.5 None) sample_seq sample_seq sample_seq tt
  = SharedAttentionProcessor_call
      (SharedAttentionProcessor_init
         {| share_attention := true; adain_queries := true; adain_keys := true;
            adain_values := false; shared_score_shift := 2.5; only_self_level := 0.75 |}
         0.5 None) sample_seq sample_seq sample_seq tt.
Proof.
  apply score_shift_and_self_level_unused; reflexivity.
Defined.


Lemma expand_first_empty_batch_witness :
  expand_first (tensor_of_list [0; 2] []) 1 = None.
Proof.
  apply (expand_first_empty_batch_raises (tensor_of_list [0; 2] []) [2] 1).
  reflexivity.
Defined.

Lemma expand_first_scaled_rank3_witness :
  ∃ r, expand_first sample_seq 0.5 = Some r ∧ shape r = shape sample_seq ∧
    ∀ i idx, i < 4 → in_bounds [2; 1] idx →
      entry r (i :: idx)
      = if decide (i = 0) then entry sample_seq (0 :: idx)
        else smul 0.5%float
               (entry sample_seq ((if decide (i mod 2 = 0) then 0 else 4 / 2) :: idx)).
Proof.
  apply (expand_first_scaled_rank3 sample_seq 4 2 1 0.5);
    [reflexivity|by exists 2|lia|reflexivity].
Defined.

(** * Errors, locality and repeated patching *)

(** ** Shapes and axes *)

Lemma numel_insert_unit sh k : 0 < numel sh → 0 < numel (<[k := 1]> sh).
Proof.
  revert k. induction sh as [|s sh IH]; intros k Hp; [done|].
  rewrite numel_cons in Hp.
  assert (Hsh : 0 < numel sh) by (destruct (numel sh); lia).
  assert (Hs : 0 < s) by (destruct s; lia).
  destruct k as [|k].
  - change (<[0:=1]> (s :: sh)) with (1 :: sh). rewrite numel_cons. lia.
  - change (<[S k:=1]> (s :: sh)) with (s :: <[k:=1]> sh). rewrite numel_cons.
    specialize (IH k Hsh). apply Nat.mul_pos_pos; lia.
Qed.

Lemma norm_dim_out_of_range rank dim :
  ¬ (- Z.of_nat rank ≤ dim < Z.of_nat rank)%Z → norm_dim rank dim = None.
Proof. intros Hd. unfold norm_dim. rewrite !decide_False by lia. done. Qed.

Lemma list_insert_cons_S {A} (a : A) l d v :
  <[S d := v]> (a :: l) = a :: <[d := v]> l.
Proof. reflexivity. Qed.

(** ** Batch broadcaster: where it raises and what it keeps *)

Section broadcaster_edges.
Context {F : Type} `{!Dtype F}.
Implicit Types t x y feat : tensor F.

Lemma reshape_None t sizes :
  numel sizes ≠ numel (shape t) → torch.reshape t sizes = None.
Proof. intros Hn. unfold torch.reshape. by rewrite decide_False. Qed.

Lemma repeat_None t reps :
  length reps < length (shape t) → torch.repeat t reps = None.
Proof. intros Hl. unfold torch.repeat. rewrite decide_False; [done|lia]. Qed.

(** The scaled branch on the pair of style elements: the tiles, cut after
    the first and joined again, hold [2 * h] copies of a style element. *)
Lemma scaled_branch_numel feat b rest h s :
  length rest ≤ 3 →
  ∃ joined,
    (rep ← torch.repeat (style_pair feat b rest) [1; h; 1; 1; 1];
     lead ← torch.slice rep 1 0 (Some 1);
     others ← torch.slice rep 1 1 None;
     torch.cat lead (torch.scalar_mul s others) 1) = Some joined ∧
    numel (shape joined) = 2 * h * numel rest.
Proof.
  intros Hlen.
  assert (Hsp : length (shape (style_pair feat b rest)) ≤ 5) by (simpl; lia).
  rewrite repeat_Some by done.
  name_tensor rep Hrep_sh Hrep. clear Hrep.
  assert (Hrep_len : length (shape rep) = 5).
  { rewrite Hrep_sh, length_zip_with, length_lpad by done. done. }
  assert (Hrep_numel : numel (shape rep) = 2 * h * numel rest).
  { rewrite Hrep_sh, numel_zip_mul, numel_lpad by (by rewrite length_lpad).
    change (numel [1; h; 1; 1; 1]) with (1 * (h * (1 * (1 * (1 * 1))))).
    change (numel (shape (style_pair feat b rest))) with (2 * (1 * numel rest)).
    lia. }
  destruct (lookup_lt_is_Some_2 (shape rep) 1) as [n Hn]; [lia|].
  rewrite (slice_Some rep 1 0 (Some 1) n Hn).
  name_tensor lead Hlead_sh Hlead. clear Hlead.
  rewrite (slice_Some rep 1 1 None n Hn).
  name_tensor others Hothers_sh Hothers. clear Hothers.
  cbn [from_option] in *.
  rewrite (cat_Some lead (torch.scalar_mul s others) 1 1
             (1 `min` n - 0 `min` n) (n - 1 `min` n)); cycle 1.
  { by rewrite Hlead_sh, length_insert, Hrep_len. }
  { rewrite Hlead_sh. apply list_lookup_insert_eq. lia. }
  { cbn [torch.scalar_mul shape]. rewrite Hothers_sh.
    apply list_lookup_insert_eq. lia. }
  { cbn [torch.scalar_mul shape].
    by rewrite Hlead_sh, Hothers_sh, !list_insert_insert_eq. }
  eexists. split; [done|]. cbn [shape].
  rewrite Hlead_sh, list_insert_insert_eq.
  rewrite (list_insert_id (shape rep)); [done|]. rewrite Hn. f_equal. lia.
Qed.

(** With an odd batch size [b] the final [reshape] is asked to fit
    [2 * (b // 2)] batch elements into [b]. *)
Lemma expand_first_odd_None feat b rest s :
  shape feat = b :: rest → Nat.Odd b → 0 < numel rest →
  expand_first feat s = None.
Proof.
  intros Hsh [h Hb] Hp.
  assert (Hdiv : b / 2 = h).
  { subst b. rewrite Nat.mul_comm, Nat.div_add_l by lia.
    rewrite (Nat.div_small 1 2) by lia. lia. }
  rewrite (expand_first_unfold feat b rest) by (done || lia). rewrite Hdiv.
  destruct (s =? 1)%float.
  - rewrite expand_Some; cycle 1.
    { simpl. lia. }
    { change (shape (style_pair feat b rest)) with (2 :: 1 :: rest).
      replace (length (2 :: h :: rest)) with (length (2 :: 1 :: rest)) by done.
      rewrite lpad_same.
      apply Forall2_cons; split; [by left|]. apply Forall2_cons; split; [by right|].
      apply Forall_Forall2_diag, Forall_forall. auto. }
    bind_step. apply reshape_None. cbn [shape]. rewrite !numel_cons. nia.
  - destruct (decide (length rest ≤ 3)) as [Hlen|Hlen].
    + destruct (scaled_branch_numel feat b rest h s Hlen) as (j & -> & Hj).
      bind_step. apply reshape_None. rewrite Hj, numel_cons. nia.
    + rewrite repeat_None; [done|]. simpl. lia.
Qed.

(** X3.  On a tensor with an odd batch size (and at least one entry per
    batch element) [expand_first] raises, whatever the scale: the two
    halves of [b // 2] copies do not fill a batch of [b]. *)
Theorem expand_first_odd_batch_raises feat b rest s :
  shape feat = b :: rest → Nat.Odd b → 0 < numel rest →
  expand_first feat s = None.
Proof. apply expand_first_odd_None. Qed.

(** X4.  With a scale other than one, [expand_first] raises on every
    tensor of five or more axes: the stacked pair has one axis more than
    the five repeat counts of [repeat(1, b // 2, 1, 1, 1)]. *)
Theorem expand_first_scaled_rank5_raises feat b rest s :
  shape feat = b :: rest → 0 < b → 4 ≤ length rest → (s =? 1)%float = false →
  expand_first feat s = None.
Proof.
  intros Hsh Hb Hlen Hs.
  rewrite (expand_first_unfold feat b rest) by done. rewrite Hs.
  rewrite repeat_None; [done|]. simpl. lia.
Qed.

(** X5.  At scale one [expand_first] is idempotent: on an even, non-empty
    batch, broadcasting the broadcast tensor again returns it entry by
    entry. *)
Theorem expand_first_idempotent feat b rest :
  shape feat = b :: rest → Nat.Even b → 0 < b →
  ∃ r r', expand_first feat 1 = Some r ∧ expand_first r 1 = Some r' ∧
    shape r' = shape r ∧
    ∀ i idx, i < b → in_bounds rest idx → entry r' (i :: idx) = entry r (i :: idx).
Proof.
  intros Hsh Hev Hpos.
  destruct (expand_first_broadcast feat b rest 1 Hsh Hev Hpos eq_refl)
    as (r & Hr & Hrsh & Hr1 & Hr2).
  assert (Hrsh' : shape r = b :: rest) by congruence.
  destruct (expand_first_broadcast r b rest 1 Hrsh' Hev Hpos eq_refl)
    as (r' & Hr' & Hr'sh & Hr'1 & Hr'2).
  exists r, r'. do 3 (split; [done|]). intros i idx Hi Hidx.
  destruct Hev as [h ->]. rewrite half_double in *.
  destruct (decide (i < h)).
  - rewrite Hr'1, !Hr1 by (done || lia). done.
  - rewrite Hr'2, !Hr2 by (done || lia). done.
Qed.

(** X6.  On a 4-dimensional batch of exactly two elements (one image per
    half) [expand_first] returns its argument entry by entry, for every
    scale: each half consists of its style element alone, which is never
    scaled. *)
Theorem expand_first_batch_of_two feat c n d s :
  shape feat = [2; c; n; d] →
  ∃ r, expand_first feat s = Some r ∧ shape r = shape feat ∧
    ∀ idx, in_bounds (shape feat) idx → entry r idx = entry feat idx.
Proof.
  intros Hsh. rewrite Hsh.
  assert (Hev : Nat.Even 2) by (by exists 1).
  destruct (s =? 1)%float eqn:Hs.
  - destruct (expand_first_broadcast feat 2 [c; n; d] s Hsh Hev)
      as (r & Hr & Hrsh & H1 & H2); [lia|done|].
    exists r. split; [done|]. split; [congruence|].
    intros [|i idx] Hidx; [by apply Forall2_nil_cons_inv in Hidx|].
    apply in_bounds_cons in Hidx as [Hi Hidx].
    change (2 / 2) with 1 in *. destruct i as [|[|i]]; [| |lia].
    + by apply H1; [lia|].
    + by apply H2; [lia|].
  - destruct (expand_first_scaled_eval feat c n d 1 s Hsh) as (r & Hr & Hrsh & He);
      [lia|done|].
    exists r. split; [done|]. split; [congruence|].
    intros [|i idx] Hidx; [by apply Forall2_nil_cons_inv in Hidx|].
    apply in_bounds_cons in Hidx as [Hi Hidx].
    rewrite He by done. destruct i as [|[|i]]; [done|done|lia].
Qed.

(** X7.  For every scale (with at most four axes when the scale is not
    one) and every valid axis, [concat_first] doubles the extent of that
    axis and keeps the tensor it was given, entry by entry, in the first
    half: the scale only reaches the appended part. *)
Theorem concat_first_keeps_original feat b rest dim s :
  shape feat = b :: rest → Nat.Even b → 0 < b →
  (s =? 1)%float = true ∨ length rest ≤ 3 →
  (- Z.of_nat (length (shape feat)) ≤ dim < Z.of_nat (length (shape feat)))%Z →
  ∃ d n r,
    norm_dim (length (shape feat)) dim = Some d ∧ shape feat !! d = Some n ∧
    concat_first feat dim s = Some r ∧
    shape r = <[d := 2 * n]> (shape feat) ∧
    ∀ idx, in_bounds (shape feat) idx → entry r idx = entry feat idx.
Proof.
  intros Hsh Hev Hpos Hs Hdim.
  destruct (expand_first_shape feat b rest s Hsh Hev Hpos Hs) as (e & He & Hesh).
  destruct (concat_first_of_expand feat e dim s He Hesh Hdim)
    as (d & n & r & Hd & Hn & Hr & Hrsh & Hre & _).
  by exists d, n, r.
Qed.

(** Along the sequence axis at scale one: the input first, then for every
    batch element the style element of its half. *)
Lemma concat_first_seq_unit t b rest :
  shape t = b :: rest → 1 ≤ length rest → Nat.Even b → 0 < b →
  ∃ r, concat_first t (-2) 1 = Some r ∧
    (∀ idx, in_bounds (shape t) idx → entry r idx = entry t idx) ∧
    ∀ i idx, i < b → in_bounds rest idx →
      entry r (alter (λ p, seq_len t + p) (seq_axis t) (i :: idx))
      = entry t ((if decide (i < b / 2) then 0 else b / 2) :: idx).
Proof.
  intros Hsh Hlen Hev Hpos.
  destruct (expand_first_broadcast t b rest 1 Hsh Hev Hpos eq_refl)
    as (e & He & Hesh & He1 & He2).
  assert (Hrank : 2 ≤ length (shape t)) by (rewrite Hsh; simpl; lia).
  destruct (concat_first_of_expand t e (-2) 1 He Hesh)
    as (d & n & r & Hd & Hn & Hr & Hrsh & Hre & Hre2); [lia|].
  rewrite norm_dim_minus_2 in Hd by done. injection Hd as <-.
  exists r. split; [done|]. split; [done|].
  intros i idx Hi Hidx.
  assert (Hlen' : seq_len t = n) by (unfold seq_len, seq_axis; by rewrite Hn).
  unfold seq_axis. rewrite Hlen', Hre2 by (rewrite Hsh; by apply in_bounds_cons).
  destruct (decide (i < b / 2)).
  - by apply He1.
  - apply He2; [lia|done].
Qed.

End broadcaster_edges.

(** ** Statistics normaliser: where it raises and what it reads *)

Section normaliser_edges.
Context {F : Type} `{!Dtype F}.
Implicit Types t x y feat : tensor F.

Lemma calc_mean_std_None feat eps :
  length (shape feat) < 2 → calc_mean_std feat eps = None.
Proof.
  intros Hr. unfold calc_mean_std, torch.var, torch.reduce.
  rewrite norm_dim_out_of_range by lia. done.
Qed.

(** X8.  [calc_mean_std] returns exactly on the tensors that have an axis
    [-2], those of two or more axes; on a tensor of fewer axes it raises. *)
Theorem calc_mean_std_needs_two_axes feat eps :
  is_Some (calc_mean_std feat eps) ↔ 2 ≤ length (shape feat).
Proof.
  split.
  - intros [ms Hms]. destruct (decide (2 ≤ length (shape feat))) as [|Hr]; [done|].
    rewrite calc_mean_std_None in Hms by lia. done.
  - intros Hr. destruct (calc_mean_std_Some feat eps Hr) as (m & sd & -> & _). eauto.
Qed.

Lemma adain_None feat b rest :
  shape feat = b :: rest → 0 < numel rest →
  Nat.Odd b ∨ length rest ≤ 1 →
  adain feat = None.
Proof.
  intros Hsh Hp Hbad. unfold adain.
  destruct (decide (2 ≤ length (shape feat))) as [Hr|Hr]; cycle 1.
  { by rewrite calc_mean_std_None by lia. }
  destruct (calc_mean_std_Some feat eps_default Hr) as (mean & std & -> & Hmsh & _).
  bind_step. rewrite Hsh in Hmsh, Hr. cbn [length] in Hmsh, Hr.
  destruct rest as [|n rest']; [simpl in Hr; lia|].
  destruct rest' as [|d rest''].
  - change (length [n]) with 1 in Hmsh. change (S 1 - 2) with 0 in Hmsh.
    change (<[0:=1]> [b; n]) with [1; n] in Hmsh.
    rewrite (expand_first_odd_None mean 1 [n] 1 Hmsh); [done|by exists 0|done].
  - destruct Hbad as [Hodd|Hl]; [|simpl in Hl; lia].
    replace (S (length (n :: d :: rest'')) - 2) with (S (length rest'')) in Hmsh
      by (simpl; lia).
    change (<[S (length rest''):=1]> (b :: n :: d :: rest''))
      with (b :: <[length rest'' := 1]> (n :: d :: rest'')) in Hmsh.
    rewrite (expand_first_odd_None mean b _ 1 Hmsh); [done|done|].
    by apply numel_insert_unit.
Qed.

(** X9.  [adain] raises on every non-empty tensor whose batch size is odd
    and on every non-empty tensor of at most two axes: with two axes the
    statistics are taken over the batch axis itself, and broadcasting the
    one row that is left fails like an odd batch. *)
Theorem adain_raises feat b rest :
  shape feat = b :: rest → 0 < numel rest →
  Nat.Odd b ∨ length rest ≤ 1 →
  adain feat = None.
Proof. apply adain_None. Qed.

(** The entries along the sequence axis through an index of batch element
    [j] are entries of batch element [j]. *)
Lemma fibre_batch_local feat feat' b rest j idx :
  shape feat = b :: rest → shape feat' = b :: rest → 2 ≤ length rest →
  in_bounds rest idx →
  (∀ idx', in_bounds rest idx' → entry feat (j :: idx') = entry feat' (j :: idx')) →
  torch.fibre feat (length (shape feat) - 2) (<[length (shape feat) - 2 := 0]> (j :: idx))
  = torch.fibre feat' (length (shape feat') - 2)
      (<[length (shape feat') - 2 := 0]> (j :: idx)).
Proof.
  intros Hsh Hsh' Hlen Hidx Hag. unfold torch.fibre. rewrite Hsh, Hsh'.
  replace (length (b :: rest) - 2) with (S (length rest - 2)) by (simpl; lia).
  rewrite !list_insert_cons_S. cbn [lookup list_lookup].
  apply Forall_fmap_ext, Forall_forall. intros k Hk.
  rewrite !list_insert_cons_S, list_insert_insert_eq. apply Hag.
  apply elem_of_seq in Hk as [_ Hk].
  destruct (rest !! (length rest - 2)) as [n|] eqn:Hn; [|simpl in Hk; lia].
  cbn [default from_option] in Hk.
  assert (Hins : in_bounds (<[length rest - 2 := n]> rest)
                          (<[length rest - 2 := k]> idx))
    by (apply Forall2_insert; [done|simpl in Hk; lia]).
  by rewrite list_insert_id in Hins.
Qed.

(** X10.  The output of [adain] for batch element [i] depends on two batch
    elements only, [i] itself and the style element of its half: two
    tensors of one shape that agree on these two have outputs that agree on
    batch element [i], whatever the other batch elements hold. *)
Theorem adain_batch_local feat feat' b rest i :
  shape feat = b :: rest → shape feat' = b :: rest → 2 ≤ length rest →
  Nat.Even b → 0 < b → i < b →
  (∀ idx, in_bounds rest idx → entry feat (i :: idx) = entry feat' (i :: idx)) →
  (∀ idx, in_bounds rest idx →
     entry feat ((if decide (i < b / 2) then 0 else b / 2) :: idx)
     = entry feat' ((if decide (i < b / 2) then 0 else b / 2) :: idx)) →
  ∃ r r', adain feat = Some r ∧ adain feat' = Some r' ∧
    ∀ idx, in_bounds rest idx → entry r (i :: idx) = entry r' (i :: idx).
Proof.
  intros Hsh Hsh' Hlen Hev Hpos Hi Hown Hstyle.
  destruct (adain_eval feat b rest Hsh Hlen Hev Hpos)
    as (mean & std & r & _ & _ & _ & Hm & Hs & Hr & _ & Hre).
  destruct (adain_eval feat' b rest Hsh' Hlen Hev Hpos)
    as (mean' & std' & r' & _ & _ & _ & Hm' & Hs' & Hr' & _ & Hre').
  exists r, r'. split; [done|]. split; [done|].
  intros idx Hidx. rewrite Hre, Hre' by done. cbv zeta.
  rewrite !Hm, !Hs, !Hm', !Hs'.
  rewrite (fibre_batch_local feat feat' b rest i idx) by done.
  rewrite (fibre_batch_local feat feat' b rest _ idx) by done.
  by rewrite Hown.
Qed.

End normaliser_edges.

(** ** Shared attention processor: odd batches and the appended values *)

Section processor_edges.
Context {F : Type} `{!Dtype F}.
Implicit Types t x y feat q k v : tensor F.

(** X11.  When the key has an odd batch size and the processor normalises
    keys or shares attention, the call raises: no query, key or value is
    returned. *)
Theorem processor_raises_on_odd_key_batch {E} (self : SharedAttentionProcessor F)
    q k v (extra_options : E) b rest :
  shape k = b :: rest → Nat.Odd b → 0 < numel rest →
  adain_keys (args self) = true ∨ share_attention (args self) = true →
  SharedAttentionProcessor_call self q k v extra_options = None.
Proof.
  intros Hsh Hodd Hp Hflag. unfold SharedAttentionProcessor_call.
  destruct (if adain_queries (args self) then adain q else Some q) as [q1|]; [|done].
  bind_step. destruct (adain_keys (args self)).
  - rewrite (adain_None k b rest) by auto. done.
  - bind_step.
    destruct (if adain_values (args self) then adain v else Some v) as [v1|]; [|done].
    bind_step. destruct Hflag as [?| ->]; [done|].
    unfold concat_first. by rewrite (expand_first_odd_None k b rest).
Qed.

(** X12.  With attention sharing on, the returned key and value begin with
    the (normalised) key and value themselves, and the positions appended
    to the value hold, for every batch element, the value of the style
    element of its half, unscaled: the configured scale is applied to the
    appended keys only. *)
Theorem shared_attention_appends_style {E} (self : SharedAttentionProcessor F)
    q k v (extra_options : E) b rest :
  batched q → batched k → shape v = b :: rest → Nat.Even b → 0 < b →
  2 ≤ length rest →
  (scale self =? 1)%float = true ∨ length (shape k) ≤ 4 →
  share_attention (args self) = true →
  ∃ q1 k1 v1 k2 v2,
    (if adain_keys (args self) then adain k else Some k) = Some k1 ∧
    (if adain_values (args self) then adain v else Some v) = Some v1 ∧
    SharedAttentionProcessor_call self q k v extra_options = Some (q1, k2, v2) ∧
    (∀ idx, in_bounds (shape k) idx → entry k2 idx = entry k1 idx) ∧
    (∀ idx, in_bounds (shape v) idx → entry v2 idx = entry v1 idx) ∧
    ∀ i idx, i < b → in_bounds rest idx →
      entry v2 (alter (λ p, seq_len v + p) (seq_axis v) (i :: idx))
      = entry v1 ((if decide (i < b / 2) then 0 else b / 2) :: idx).
Proof.
  intros Hq Hk Hvsh Hev Hpos Hlen Hs Hshare.
  assert (Hv : batched v) by (by exists b, rest).
  destruct (adain_if_shape (adain_queries (args self)) q Hq) as (q1 & Hq1 & Hq1sh).
  destruct (adain_if_shape (adain_keys (args self)) k Hk) as (k1 & Hk1 & Hk1sh).
  destruct (adain_if_shape (adain_values (args self)) v Hv) as (v1 & Hv1 & Hv1sh).
  exists q1, k1, v1. unfold SharedAttentionProcessor_call.
  rewrite Hq1, Hk1, Hv1, Hshare. bind_step.
  destruct Hk as (bk & rk & Hksh & Hkev & Hkpos & Hklen).
  destruct (concat_first_seq k1 bk rk (scale self)) as (k2 & Hk2 & _ & Hk2e);
    [congruence|lia|done|done| |].
  { destruct Hs as [?|Hl]; [by left|right]. rewrite Hksh in Hl. simpl in Hl. lia. }
  destruct (concat_first_seq_unit v1 b rest) as (v2 & Hv2 & Hv2e & Hv2s);
    [congruence|lia|done|done|].
  exists k2, v2. rewrite Hk2, Hv2. bind_step.
  do 3 (split; [done|]). split; [by rewrite <- Hk1sh|]. split; [by rewrite <- Hv1sh|].
  intros i idx Hi Hidx. rewrite <- (Hv2s i idx Hi Hidx).
  unfold seq_len, seq_axis. by rewrite Hv1sh.
Qed.

End processor_edges.

(** ** Layer-tree walker: the dictionary it is given *)

Lemma dict_append_dom key x d d' :
  dict_append key x d = Some d' → dom d' = dom d.
Proof.
  unfold dict_append. destruct (d !! key) as [l|] eqn:Hl; [|done].
  intros [= <-]. apply dom_insert_lookup_L. eauto.
Qed.

Lemma dict_append_None key x d :
  d !! key = None → dict_append key x d = None.
Proof. intros Hk. unfold dict_append. by rewrite Hk. Qed.

Lemma for_each_dom {A}
    (body : A → gmap string (list nat) → option (gmap string (list nat)))
    (l : list A) :
  Forall (λ x, ∀ d d', body x d = Some d' → dom d' = dom d) l →
  ∀ d d', for_each body l d = Some d' → dom d' = dom d.
Proof.
  induction 1 as [|x l Hx _ IH]; intros d d'; cbn [for_each].
  - by intros [= <-].
  - destruct (body x d) as [d1|] eqn:H1; [|done]. bind_step.
    intros H2. rewrite (IH _ _ H2). by apply Hx.
Qed.

Lemma get_norm_layers_dom layer d sl sg d' :
  get_norm_layers layer d sl sg = Some d' → dom d' = dom d.
Proof.
  revert d d'. induction layer as [self kind children IH] using nn_module_forall_ind.
  intros d d'. cbn [get_norm_layers].
  destruct (if isinstance_LayerNorm kind && sl then dict_append "layer" self d
            else Some d) as [d1|] eqn:H1; [|done].
  bind_step.
  assert (Hd1 : dom d1 = dom d).
  { destruct (isinstance_LayerNorm kind && sl).
    - by eapply dict_append_dom.
    - by injection H1 as <-. }
  destruct (isinstance_GroupNorm kind && sg).
  - intros H2. rewrite <- Hd1. by eapply dict_append_dom.
  - intros H2. rewrite <- Hd1. revert H2. by apply for_each_dom.
Qed.

Lemma lookup_None_dom (d d' : gmap string (list nat)) key :
  dom d' = dom d → d !! key = None → d' !! key = None.
Proof. intros Hd Hk. apply not_elem_of_dom. rewrite Hd. by apply not_elem_of_dom. Qed.

(** With both kinds of sharing off nothing is looked up in the dictionary. *)
Lemma get_norm_layers_off layer d :
  get_norm_layers layer d false false = Some d.
Proof.
  revert d. induction layer as [self kind children IH] using nn_module_forall_ind.
  intros d. cbn [get_norm_layers]. rewrite !andb_false_r. bind_step.
  induction IH as [|c cs Hc _ IHcs]; [done|].
  cbn [for_each]. rewrite Hc. bind_step. apply IHcs.
Qed.

Lemma recorded_off layer :
  recorded_group false layer = [] ∧ recorded_layer false false layer = [].
Proof.
  induction layer as [self kind children IH] using nn_module_forall_ind.
  cbn [recorded_group recorded_layer]. rewrite !andb_false_r. cbn [app].
  induction IH as [|c cs [Hg Hl] _ [IHg IHl]]; [done|].
  cbn [flat_map]. by rewrite Hg, Hl, IHg, IHl.
Qed.

Lemma get_norm_layers_missing_layer layer d sl sg :
  d !! "layer" = None → recorded_layer sl sg layer ≠ [] →
  get_norm_layers layer d sl sg = None.
Proof.
  revert d. induction layer as [self kind children IH] using nn_module_forall_ind.
  intros d Hk. cbn [get_norm_layers recorded_layer].
  destruct (isinstance_LayerNorm kind && sl).
  { intros _. by rewrite dict_append_None. }
  bind_step. cbn [app]. destruct (isinstance_GroupNorm kind && sg); [done|].
  revert d Hk. induction IH as [|c cs Hc _ IHcs]; intros d Hk; [done|].
  cbn [flat_map for_each]. intros Hne.
  destruct (recorded_layer sl sg c) as [|x xs] eqn:Hrc.
  - destruct (get_norm_layers c d sl sg) as [d1|] eqn:H1; [|done]. bind_step.
    apply IHcs; [|done].
    eapply lookup_None_dom; [by eapply get_norm_layers_dom|done].
  - by rewrite Hc.
Qed.

Lemma get_norm_layers_missing_group layer d sl sg :
  d !! "group" = None → recorded_group sg layer ≠ [] →
  get_norm_layers layer d sl sg = None.
Proof.
  revert d. induction layer as [self kind children IH] using nn_module_forall_ind.
  intros d Hk. cbn [get_norm_layers recorded_group].
  destruct (if isinstance_LayerNorm kind && sl then dict_append "layer" self d
            else Some d) as [d1|] eqn:H1; [|done].
  bind_step.
  assert (Hk1 : d1 !! "group" = None).
  { destruct (isinstance_LayerNorm kind && sl).
    - eapply lookup_None_dom; [by eapply dict_append_dom|done].
    - by injection H1 as <-. }
  clear H1 Hk. destruct (isinstance_GroupNorm kind && sg).
  { intros _. by rewrite dict_append_None. }
  revert d1 Hk1. induction IH as [|c cs Hc _ IHcs]; intros d1 Hk1; [done|].
  cbn [flat_map for_each]. intros Hne.
  destruct (recorded_group sg c) as [|x xs] eqn:Hrc.
  - destruct (get_norm_layers c d1 sl sg) as [d2|] eqn:H2; [|done]. bind_step.
    apply IHcs; [|done].
    eapply lookup_None_dom; [by eapply get_norm_layers_dom|done].
  - by rewrite Hc.
Qed.

Lemma recorded_group_nodes sg layer x :
  x ∈ recorded_group sg layer → sg = true ∧ (x, GroupNorm) ∈ nodes layer.
Proof.
  induction layer as [self kind children IH] using nn_module_forall_ind.
  cbn [recorded_group nodes]. destruct kind, sg; cbn [isinstance_GroupNorm andb].
  all: try (intros Hx; apply list_elem_of_In, in_flat_map in Hx as (c & Hc & Hx);
            apply list_elem_of_In in Hc, Hx;
            rewrite Forall_forall in IH; destruct (IH c Hc Hx) as [? Hn];
            split; [done|]; apply elem_of_cons; right;
            apply list_elem_of_In, in_flat_map; exists c;
            split; by apply list_elem_of_In).
  intros Hx. apply list_elem_of_singleton in Hx as ->. split; [done|]. by left.
Qed.

Lemma recorded_layer_nodes sl sg layer x :
  x ∈ recorded_layer sl sg layer → sl = true ∧ (x, LayerNorm) ∈ nodes layer.
Proof.
  induction layer as [self kind children IH] using nn_module_forall_ind.
  cbn [recorded_layer nodes]. intros Hx. apply elem_of_app in Hx as [Hx|Hx].
  - destruct kind, sl; cbn [isinstance_LayerNorm andb] in Hx;
      try (by apply elem_of_nil in Hx).
    apply list_elem_of_singleton in Hx as ->. split; [done|]. by left.
  - destruct (isinstance_GroupNorm kind && sg); [by apply elem_of_nil in Hx|].
    apply list_elem_of_In, in_flat_map in Hx as (c & Hc & Hx).
    apply list_elem_of_In in Hc, Hx.
    rewrite Forall_forall in IH. destruct (IH c Hc Hx) as [? Hn].
    split; [done|]. apply elem_of_cons. right.
    apply list_elem_of_In, in_flat_map. exists c. split; by apply list_elem_of_In.
Qed.

(** X13.  With both kinds of sharing off the walk returns the dictionary
    it was given, on every tree and for every dictionary, also one that
    lacks the two keys: nothing is recorded and no key is looked up. *)
Theorem get_norm_layers_sharing_off layer d :
  get_norm_layers layer d false false = Some d.
Proof. apply get_norm_layers_off. Qed.

(** X14.  A walk that returns leaves the set of keys of the dictionary as
    it was: it appends to the lists under the keys that are there and adds
    or removes no key. *)
Theorem get_norm_layers_keeps_keys layer d sl sg d' :
  get_norm_layers layer d sl sg = Some d' → dom d' = dom d.
Proof. apply get_norm_layers_dom. Qed.

(** X15.  The walk raises (a [KeyError]) when the dictionary lacks the key
    under which a node of the tree is to be recorded: the key [layer] when
    some layer-norm is to be recorded, the key [group] when some group-norm
    is. *)
Theorem get_norm_layers_missing_key layer d sl sg :
  (d !! "layer" = None ∧ recorded_layer sl sg layer ≠ [])
  ∨ (d !! "group" = None ∧ recorded_group sg layer ≠ []) →
  get_norm_layers layer d sl sg = None.
Proof.
  intros [[Hk Hr]|[Hk Hr]].
  - by apply get_norm_layers_missing_layer.
  - by apply get_norm_layers_missing_group.
Qed.

(** X16.  What a walk appends under [group] are group-norm nodes of the
    tree, and only with group sharing on; what it appends under [layer]
    are layer-norm nodes of the tree, and only with layer sharing on.  No
    node of another class is ever recorded, and what the lists held before
    stays in front. *)
Theorem get_norm_layers_records_kinds layer d sl sg g0 l0 d' :
  d !! "group" = Some g0 → d !! "layer" = Some l0 →
  get_norm_layers layer d sl sg = Some d' →
  ∃ g l, d' !! "group" = Some (g0 ++ g) ∧ d' !! "layer" = Some (l0 ++ l) ∧
    (∀ x, x ∈ g → sg = true ∧ (x, GroupNorm) ∈ nodes layer) ∧
    (∀ x, x ∈ l → sl = true ∧ (x, LayerNorm) ∈ nodes layer).
Proof.
  intros Hg Hl Hw.
  destruct (get_norm_layers_walked layer d sl sg g0 l0 Hg Hl)
    as (d1 & Hd1 & (g0' & l0' & Hg0 & Hl0 & Hg' & Hl' & _)).
  rewrite Hw in Hd1. injection Hd1 as <-.
  rewrite Hg in Hg0. rewrite Hl in Hl0. injection Hg0 as <-. injection Hl0 as <-.
  exists (recorded_group sg layer), (recorded_layer sl sg layer).
  split; [done|]. split; [done|]. split.
  - intros x. apply recorded_group_nodes.
  - intros x. apply recorded_layer_nodes.
Qed.

(** ** Shared normalisation wrapper: what it leaves alone, where it raises *)

Section wrapper_frame.
Implicit Types heap : gmap nat (gmap string forward_fn).

Lemma getattr_wrapped_frame heap l o name :
  o ≠ l ∨ (name ≠ "forward" ∧ name ≠ "orig_forward") →
  getattr (wrapped heap l) o name = getattr heap o name.
Proof.
  intros Hf. unfold getattr. destruct (decide (o = l)) as [->|Hne].
  - destruct Hf as [?|[Hn1 Hn2]]; [done|].
    rewrite instance_dict_wrapped_eq. by rewrite !lookup_insert_ne by done.
  - by rewrite instance_dict_wrapped_ne.
Qed.

Lemma wrapped_is_Some heap a l :
  a = l ∨ is_Some (heap !! l) → is_Some (wrapped heap a !! l).
Proof.
  intros Hl. unfold wrapped. destruct (decide (a = l)) as [->|Hne].
  - rewrite lookup_insert_eq. eauto.
  - rewrite lookup_insert_ne by done. by destruct Hl.
Qed.

Lemma foldl_wrapped_is_Some heap ls l :
  l ∈ ls ∨ is_Some (heap !! l) → is_Some (foldl wrapped heap ls !! l).
Proof.
  revert heap. induction ls as [|a ls IH]; intros heap Hl; cbn [foldl].
  - destruct Hl as [Hl|?]; [by apply elem_of_nil in Hl|done].
  - apply IH. destruct Hl as [Hl|Hl].
    + apply elem_of_cons in Hl as [->|?]; [|by left].
      right. apply wrapped_is_Some. by left.
    + right. apply wrapped_is_Some. by right.
Qed.

Lemma instance_dict_lookup heap l :
  is_Some (heap !! l) → heap !! l = Some (instance_dict heap l).
Proof. intros [x Hx]. unfold instance_dict. by rewrite Hx. Qed.

(** Wrapping a list of layers a second time changes nothing. *)
Lemma foldl_wrapped_idemp heap ls :
  foldl wrapped (foldl wrapped heap ls) ls = foldl wrapped heap ls.
Proof.
  apply map_eq. intros l. destruct (decide (l ∈ ls)) as [Hin|Hnotin].
  - rewrite !instance_dict_lookup by (apply foldl_wrapped_is_Some; by left).
    f_equal. rewrite (foldl_wrapped_in _ ls l Hin).
    rewrite (instance_dict_wrapped_ext _ (wrapped heap l))
      by (rewrite foldl_wrapped_in by done; done).
    rewrite wrapped_idemp. by rewrite foldl_wrapped_in.
  - by rewrite !foldl_wrapped_notin.
Qed.

(** X17.  [register_norm_forward] always returns, hands back the layer it
    was given, and changes two attributes of that one object only: every
    attribute of every other object, and every attribute of the layer
    other than [forward] and [orig_forward], reads as before. *)
Theorem register_norm_forward_frame heap layer :
  ∃ heap', register_norm_forward heap layer = Some (heap', layer) ∧
    ∀ o name, o ≠ layer ∨ (name ≠ "forward" ∧ name ≠ "orig_forward") →
      getattr heap' o name = getattr heap o name.
Proof.
  exists (wrapped heap layer). split; [apply register_norm_forward_wrapped|].
  intros o name. apply getattr_wrapped_frame.
Qed.

End wrapper_frame.

Section wrapper_edges.
Context {F : Type} `{!Dtype F}.
Implicit Types t x y feat : tensor F.

(** X18.  A wrapped [forward] raises, without calling the layer's own
    computation, on an input of fewer than two axes (there is no axis [-2])
    and on a non-empty input whose batch size is odd. *)
Theorem forward_wrapper_raises native orig x :
  length (shape x) < 2
  ∨ (∃ b rest, shape x = b :: rest ∧ Nat.Odd b ∧ 0 < numel rest) →
  call_forward native (forward_ orig) x = None.
Proof.
  intros Hbad. cbn [call_forward].
  destruct (decide (length (shape x) < 2)) as [Hr|Hr].
  - unfold torch.size. rewrite norm_dim_out_of_range by lia. done.
  - destruct Hbad as [?|(b & rest & Hsh & Hodd & Hp)]; [done|].
    rewrite size_seq by lia. bind_step. unfold concat_first.
    by rewrite (expand_first_odd_None x b rest).
Qed.

(** X19.  Around an original that always returns, keeps shapes and works
    row by row along the last axis (its output at an index depends on the
    input entries of the same row only, as a normalisation over the last
    axis does), the wrapper changes nothing: on an input with an even,
    non-zero batch and three or more axes the wrapped [forward] returns,
    entry by entry, what the original returns on that input.  The appended
    style positions are cut off again without having been read. *)
Theorem forward_wrapper_of_rowwise_layer native orig x b rest :
  shape x = b :: rest → 2 ≤ length rest → Nat.Even b → 0 < b →
  (∀ w, ∃ y, call_forward native orig w = Some y ∧ shape y = shape w) →
  (∀ w w' y y' idx,
     call_forward native orig w = Some y → call_forward native orig w' = Some y' →
     in_bounds (shape w) idx →
     shape w' !! length rest = shape w !! length rest →
     (∀ j, in_bounds (shape w) (<[length rest := j]> idx) →
           entry w' (<[length rest := j]> idx) = entry w (<[length rest := j]> idx)) →
     entry y' idx = entry y idx) →
  ∃ y y', call_forward native (forward_ orig) x = Some y ∧
          call_forward native orig x = Some y' ∧
          shape y = shape x ∧
          ∀ idx, in_bounds (shape x) idx → entry y idx = entry y' idx.
Proof.
  intros Hsh Hlen Hev Hpos Htotal Hrow.
  destruct (forward_wrapper_eval native orig x b rest Hsh) as
    (w & y0 & y & Hw & Hwsh & Hy0 & _ & Hy & Hysh & Hye); [lia|done|done| |].
  { intros w _. apply Htotal. }
  destruct (Htotal x) as (y' & Hy' & _).
  exists y, y'. do 3 (split; [done|]). intros idx Hidx.
  rewrite Hye. apply (Hrow x w y' y0 idx Hy' Hy0 Hidx).
  - rewrite Hwsh. apply list_lookup_insert_ne.
    unfold seq_axis. rewrite Hsh. simpl. lia.
  - intros j Hj.
    destruct (concat_first_seq x b rest 1 Hsh) as (w1 & Hw1 & _ & Hw1e);
      [lia|done|done|by left|].
    rewrite Hw in Hw1. injection Hw1 as <-. by apply Hw1e.
Qed.

End wrapper_edges.

(** ** The patch: what is printed, disabled sharing, patching twice *)

Section patch_edges.
Context {F : Type}.
Variable clone_model : nn_module → nn_module.

Lemma register_shared_norm_eval (w : world F) model_ sg sl p :
  patchers w !! model_ = Some p →
  register_shared_norm w model_ sg sl
  = Some ({| modules := foldl wrapped (modules w)
                          (recorded_group sg (model p) ++ recorded_layer sl sg (model p));
             patchers := patchers w;
             stdout := stdout w ++
               ["Patching " +:+ pretty (length (recorded_group sg (model p)))
                +:+ " group norms, "
                +:+ pretty (length (recorded_layer sl sg (model p)))
                +:+ " layer norms."] |},
           recorded_group sg (model p) ++ recorded_layer sl sg (model p)).
Proof.
  intros Hp. unfold register_shared_norm. rewrite Hp. bind_step.
  destruct (get_norm_layers_walked (model p)
              (<["group" := []]> (<["layer" := []]> ∅)) sl sg [] [])
    as (d' & Hd' & (g0 & l0 & Hg0 & Hl0 & Hg & Hl & _)); [done|done|].
  rewrite lookup_insert_eq in Hg0.
  rewrite lookup_insert_ne, lookup_insert_eq in Hl0 by done.
  injection Hg0 as <-. injection Hl0 as <-. cbn [app] in Hg, Hl.
  rewrite Hd'. bind_step. rewrite Hg, Hl. bind_step.
  rewrite register_each_wrapped. bind_step.
  rewrite register_each_wrapped. bind_step.
  by rewrite foldl_app.
Qed.

Lemma patch_eval (w : world F) model_ share_norm scale_ style_image p :
  patchers w !! model_ = Some p →
  let sg := bool_decide (share_norm ∈ ["group"; "both"]) in
  let sl := bool_decide (share_norm ∈ ["layer"; "both"]) in
  let m := fresh (dom (patchers w)) in
  m ≠ model_ ∧
  patch clone_model w model_ share_norm scale_ style_image
  = Some ({| modules := foldl wrapped (modules w)
                          (recorded_group sg (model p) ++ recorded_layer sl sg (model p));
             patchers :=
               <[m := {| model := clone_model (model p);
                         attn1_patch := attn1_patch p ++
                           [SharedAttentionProcessor_init StyleAlignedArgs_default
                              scale_ style_image] |}]> (patchers w);
             stdout := stdout w ++
               ["Patching " +:+ pretty (length (recorded_group sg (model p)))
                +:+ " group norms, "
                +:+ pretty (length (recorded_layer sl sg (model p)))
                +:+ " layer norms."] |}, m).
Proof.
  intros Hp sg sl m.
  assert (Hfresh : patchers w !! m = None).
  { apply not_elem_of_dom. apply is_fresh. }
  assert (Hne : m ≠ model_) by (intros ->; congruence).
  split; [done|].
  unfold patch, ModelPatcher_clone. rewrite Hp. bind_step. fold m.
  erewrite register_shared_norm_eval
    by (cbn [patchers]; by rewrite lookup_insert_ne).
  fold sg sl. bind_step.
  unfold set_model_attn1_patch. cbn [patchers modules stdout].
  rewrite lookup_insert_eq. bind_step. by rewrite insert_insert_eq.
Qed.

(** X20.  [register_shared_norm] on a model object returns the wrapped
    layers, the group-norms first and then the layer-norms, each list in
    the order of the walk; it prints one line with the two counts; it
    leaves every model object as it is and touches no module outside the
    returned list. *)
Theorem register_shared_norm_result (w : world F) model_ sg sl p :
  patchers w !! model_ = Some p →
  ∃ w' g l,
    get_norm_layers (model p) (<["group" := []]> (<["layer" := []]> ∅)) sl sg
    = Some (<["group" := g]> (<["layer" := l]> ∅)) ∧
    register_shared_norm w model_ sg sl = Some (w', g ++ l) ∧
    patchers w' = patchers w ∧
    stdout w' = stdout w ++
      ["Patching " +:+ pretty (length g) +:+ " group norms, "
       +:+ pretty (length l) +:+ " layer norms."] ∧
    ∀ o, o ∉ g ++ l → modules w' !! o = modules w !! o.
Proof.
  intros Hp.
  destruct (get_norm_layers_walked (model p)
              (<["group" := []]> (<["layer" := []]> ∅)) sl sg [] [])
    as (d' & Hd' & (g0 & l0 & Hg0 & Hl0 & Hg & Hl & Hother)); [done|done|].
  rewrite lookup_insert_eq in Hg0.
  rewrite lookup_insert_ne, lookup_insert_eq in Hl0 by done.
  injection Hg0 as <-. injection Hl0 as <-. cbn [app] in Hg, Hl.
  assert (Hd : d' = <["group" := recorded_group sg (model p)]>
                      (<["layer" := recorded_layer sl sg (model p)]> ∅)).
  { apply map_eq. intros key.
    destruct (decide (key = "group")) as [->|Hkg].
    { by rewrite lookup_insert_eq. }
    rewrite lookup_insert_ne by done.
    destruct (decide (key = "layer")) as [->|Hkl].
    { by rewrite lookup_insert_eq. }
    rewrite lookup_insert_ne by done.
    rewrite Hother by done. by rewrite !lookup_insert_ne by done. }
  eexists _, (recorded_group sg (model p)), (recorded_layer sl sg (model p)).
  split; [by rewrite Hd', Hd|].
  split; [by apply register_shared_norm_eval|].
  cbn [patchers stdout modules]. split; [done|]. split; [done|].
  intros o Ho. by apply foldl_wrapped_notin.
Qed.

(** X21.  A patch whose [share_norm] is none of [group], [layer] and
    [both] (the node offers [disabled]) wraps no layer: the module objects
    are as before and the printed line counts zero and zero.  The
    attention hook is installed all the same. *)
Theorem patch_disabled_wraps_nothing (w : world F) model_ share_norm scale_
    style_image p :
  share_norm ∉ ["group"; "layer"; "both"] →
  patchers w !! model_ = Some p →
  ∃ w' m,
    patch clone_model w model_ share_norm scale_ style_image = Some (w', m) ∧
    modules w' = modules w ∧
    stdout w' = stdout w ++ ["Patching 0 group norms, 0 layer norms."] ∧
    patchers w' !! m
    = Some {| model := clone_model (model p);
              attn1_patch := attn1_patch p ++
                [SharedAttentionProcessor_init StyleAlignedArgs_default
                   scale_ style_image] |}.
Proof.
  intros Hsn Hp.
  destruct (patch_eval w model_ share_norm scale_ style_image p Hp) as [_ Hpatch].
  cbv zeta in Hpatch. rewrite Hpatch.
  assert (Hg : bool_decide (share_norm ∈ ["group"; "both"]) = false).
  { apply bool_decide_eq_false. intros H. apply Hsn. revert H.
    rewrite !elem_of_cons, !elem_of_nil. tauto. }
  assert (Hl : bool_decide (share_norm ∈ ["layer"; "both"]) = false).
  { apply bool_decide_eq_false. intros H. apply Hsn. revert H.
    rewrite !elem_of_cons, !elem_of_nil. tauto. }
  rewrite Hg, Hl. destruct (recorded_off (model p)) as [-> ->].
  eexists _, _. split; [done|]. cbn [modules stdout patchers].
  split; [done|]. split; [done|]. by rewrite lookup_insert_eq.
Qed.

(** X22.  Patching the same model object a second time with the same
    [share_norm] wraps nothing again: the module objects after the second
    patch are those after the first, whatever scale and style image the
    two patches were given.  Each patch returns a model object of its own,
    and the second leaves the first one's and the original as they were. *)
Theorem patch_twice_wraps_once (w : world F) model_ share_norm
    scale1 style1 scale2 style2 p :
  patchers w !! model_ = Some p →
  ∃ w1 m1 w2 m2,
    patch clone_model w model_ share_norm scale1 style1 = Some (w1, m1) ∧
    patch clone_model w1 model_ share_norm scale2 style2 = Some (w2, m2) ∧
    modules w2 = modules w1 ∧
    m2 ≠ m1 ∧ m2 ≠ model_ ∧
    patchers w2 !! m1 = patchers w1 !! m1 ∧
    patchers w2 !! model_ = patchers w !! model_.
Proof.
  intros Hp.
  destruct (patch_eval w model_ share_norm scale1 style1 p Hp) as [Hne1 Hpatch1].
  cbv zeta in Hpatch1. rewrite Hpatch1.
  set (m1 := fresh (dom (patchers w))) in *.
  match type of Hpatch1 with _ = Some (?x, _) => set (w1 := x) in * end.
  assert (Hp1 : patchers w1 !! model_ = Some p).
  { subst w1. cbn [patchers]. by rewrite lookup_insert_ne. }
  destruct (patch_eval w1 model_ share_norm scale2 style2 p Hp1) as [Hne2 Hpatch2].
  cbv zeta in Hpatch2.
  set (m2 := fresh (dom (patchers w1))) in *.
  assert (Hfresh2 : patchers w1 !! m2 = None).
  { apply not_elem_of_dom. apply is_fresh. }
  assert (Hne21 : m2 ≠ m1).
  { intros E. rewrite E in Hfresh2. subst w1. cbn [patchers] in Hfresh2.
    by rewrite lookup_insert_eq in Hfresh2. }
  eexists w1, m1, _, m2. split; [done|]. split; [exact Hpatch2|].
  cbn [modules patchers]. split.
  { subst w1. cbn [modules]. apply foldl_wrapped_idemp. }
  split; [done|]. split; [done|].
  split; [by rewrite lookup_insert_ne|].
  rewrite lookup_insert_ne by done. subst w1. cbn [patchers].
  by rewrite lookup_insert_ne.
Qed.

End patch_edges.

(** ** Concrete runs of the errors and of repeated patching *)

(** Three batch elements: the broadcaster, the normaliser and a wrapped
    layer all stop with an error. *)
Example odd_batch_run :
  expand_first sample_odd 1 = None ∧ adain sample_odd = None ∧
  call_forward (λ _ x, Some x) (forward_ (class_forward 1)) sample_odd = None.
Proof. vm_compute. done. Qed.

(** A walk over a dictionary without keys. *)
Example get_norm_layers_empty_dict_run :
  get_norm_layers sample_tree ∅ true true = None ∧
  get_norm_layers sample_tree ∅ false false = Some ∅.
Proof. vm_compute. done. Qed.

(** What [register_shared_norm] prints for the toy tree. *)
Example register_shared_norm_run :
  (λ r, (stdout r.1, r.2)) <$> register_shared_norm sample_world 7 true true
  = Some (["Patching 1 group norms, 1 layer norms."], [1; 3]).
Proof. vm_compute. reflexivity. Qed.

(** ** Witnesses of the further properties *)

Lemma expand_first_odd_batch_witness : expand_first sample_odd 0.5 = None.
Proof.
  apply (expand_first_odd_batch_raises sample_odd 3 [2; 1] 0.5);
    [reflexivity|by exists 1|simpl; lia].
Defined.

Lemma expand_first_scaled_rank5_witness : expand_first sample_rank5 0.5 = None.
Proof.
  apply (expand_first_scaled_rank5_raises sample_rank5 2 [1; 1; 1; 2] 0.5);
    [reflexivity|lia|simpl; lia|reflexivity].
Defined.

Lemma expand_first_idempotent_witness :
  ∃ r r', expand_first sample_seq 1 = Some r ∧ expand_first r 1 = Some r' ∧
    shape r' = shape r ∧
    ∀ i idx, i < 4 → in_bounds [2; 1] idx → entry r' (i :: idx) = entry r (i :: idx).
Proof.
  apply (expand_first_idempotent sample_seq 4 [2; 1]);
    [reflexivity|by exists 2|lia].
Defined.

Lemma expand_first_batch_of_two_witness :
  ∃ r, expand_first sample_pair 0.5 = Some r ∧ shape r = shape sample_pair ∧
    ∀ idx, in_bounds (shape sample_pair) idx → entry r idx = entry sample_pair idx.
Proof.
  apply (expand_first_batch_of_two sample_pair 1 1 1 0.5). reflexivity.
Defined.

Lemma concat_first_keeps_original_witness :
  ∃ d n r,
    norm_dim (length (shape sample_batch)) (-2) = Some d ∧
    shape sample_batch !! d = Some n ∧
    concat_first sample_batch (-2) 0.5 = Some r ∧
    shape r = <[d := 2 * n]> (shape sample_batch) ∧
    ∀ idx, in_bounds (shape sample_batch) idx → entry r idx = entry sample_batch idx.
Proof.
  apply (concat_first_keeps_original sample_batch 4 [1; 2; 1] (-2) 0.5);
    [reflexivity|by exists 2|lia|right; simpl; lia|simpl; lia].
Defined.

Lemma adain_raises_witness : adain sample_odd = None.
Proof.
  apply (adain_raises sample_odd 3 [2; 1]);
    [reflexivity|simpl; lia|left; by exists 1].
Defined.

Lemma adain_batch_local_witness :
  ∃ r r', adain sample_seq = Some r ∧ adain sample_seq_other = Some r' ∧
    ∀ idx, in_bounds [2; 1] idx → entry r (0 :: idx) = entry r' (0 :: idx).
Proof.
  apply (adain_batch_local sample_seq sample_seq_other 4 [2; 1] 0);
    [reflexivity|reflexivity|simpl; lia|by exists 2|lia|lia| |];
    intros idx _; reflexivity.
Defined.

Lemma processor_raises_on_odd_key_batch_witness :
  SharedAttentionProcessor_call sample_processor sample_seq sample_odd sample_seq tt
  = None.
Proof.
  apply (processor_raises_on_odd_key_batch sample_processor sample_seq sample_odd
           sample_seq tt 3 [2; 1]);
    [reflexivity|by exists 1|simpl; lia|left; reflexivity].
Defined.

Lemma shared_attention_appends_style_witness :
  ∃ q1 k1 v1 k2 v2,
    adain sample_seq = Some k1 ∧ Some sample_seq = Some v1 ∧
    SharedAttentionProcessor_call sample_processor sample_seq sample_seq sample_seq tt
    = Some (q1, k2, v2) ∧
    (∀ idx, in_bounds (shape sample_seq) idx → entry k2 idx = entry k1 idx) ∧
    (∀ idx, in_bounds (shape sample_seq) idx → entry v2 idx = entry v1 idx) ∧
    ∀ i idx, i < 4 → in_bounds [2; 1] idx →
      entry v2 (alter (λ p, seq_len sample_seq + p) (seq_axis sample_seq) (i :: idx))
      = entry v1 ((if decide (i < 4 / 2) then 0 else 4 / 2) :: idx).
Proof.
  apply (shared_attention_appends_style sample_processor sample_seq sample_seq
           sample_seq tt 4 [2; 1] batched_sample_seq batched_sample_seq);
    [reflexivity|by exists 2|lia|simpl; lia|right; simpl; lia|reflexivity].
Defined.

Lemma get_norm_layers_keeps_keys_witness :
  dom (<["group" := [1]]> (<["layer" := [3]]> (∅ : gmap string (list nat))))
  = dom (<["group" := []]> (<["layer" := []]> (∅ : gmap string (list nat)))).
Proof.
  apply (get_norm_layers_keeps_keys sample_tree _ true true).
  vm_compute. reflexivity.
Defined.

Lemma get_norm_layers_missing_key_witness :
  get_norm_layers sample_tree ∅ true true = None.
Proof.
  apply get_norm_layers_missing_key. left. split; [reflexivity|discriminate].
Defined.

Lemma get_norm_layers_records_kinds_witness :
  ∃ g l,
    (<["group" := [1]]> (<["layer" := [3]]> ∅) : gmap string (list nat)) !! "group"
    = Some ([] ++ g) ∧
    (<["group" := [1]]> (<["layer" := [3]]> ∅) : gmap string (list nat)) !! "layer"
    = Some ([] ++ l) ∧
    (∀ x, x ∈ g → true = true ∧ (x, GroupNorm) ∈ nodes sample_tree) ∧
    (∀ x, x ∈ l → true = true ∧ (x, LayerNorm) ∈ nodes sample_tree).
Proof.
  apply (get_norm_layers_records_kinds sample_tree
           (<["group" := []]> (<["layer" := []]> ∅)) true true [] []);
    [reflexivity|reflexivity|vm_compute; reflexivity].
Defined.

Lemma forward_wrapper_raises_witness :
  call_forward (λ _ x, Some x) (forward_ (class_forward 1)) sample_odd = None.
Proof.
  apply forward_wrapper_raises. right. exists 3, [2; 1].
  split; [reflexivity|]. split; [by exists 1|simpl; lia].
Defined.

Lemma forward_wrapper_of_rowwise_layer_witness :
  ∃ y y', call_forward (λ _ x, Some x) (forward_ (class_forward 1)) sample_seq = Some y ∧
          call_forward (λ _ x, Some x) (class_forward 1) sample_seq = Some y' ∧
          shape y = shape sample_seq ∧
          ∀ idx, in_bounds (shape sample_seq) idx → entry y idx = entry y' idx.
Proof.
  apply (forward_wrapper_of_rowwise_layer (λ _ x, Some x) (class_forward 1)
           sample_seq 4 [2; 1]); [reflexivity|simpl; lia|by exists 2|lia| |].
  - intros w. exists w. split; reflexivity.
  - intros w w' y y' idx [= <-] [= <-] Hidx _ Hrow.
    destruct (idx !! 2) as [j|] eqn:Hj.
    + specialize (Hrow j). rewrite list_insert_id in Hrow by done. by apply Hrow.
    + specialize (Hrow 0). rewrite list_insert_ge in Hrow by (by apply lookup_ge_None).
      by apply Hrow.
Defined.

Lemma register_shared_norm_result_witness :
  ∃ w' g l,
    get_norm_layers sample_tree (<["group" := []]> (<["layer" := []]> ∅)) true true
    = Some (<["group" := g]> (<["layer" := l]> ∅)) ∧
    register_shared_norm sample_world 7 true true = Some (w', g ++ l) ∧
    patchers w' = patchers sample_world ∧
    stdout w' = stdout sample_world ++
      ["Patching " +:+ pretty (length g) +:+ " group norms, "
       +:+ pretty (length l) +:+ " layer norms."] ∧
    ∀ o, o ∉ g ++ l → modules w' !! o = modules sample_world !! o.
Proof.
  apply (register_shared_norm_result sample_world 7 true true
           {| model := sample_tree; attn1_patch := [] |}).
  reflexivity.
Defined.

Lemma patch_disabled_witness :
  ∃ w' m,
    patch (λ tree, tree) sample_world 7 "disabled" 0.5%float None = Some (w', m) ∧
    modules w' = modules sample_world ∧
    stdout w' = stdout sample_world ++ ["Patching 0 group norms, 0 layer norms."] ∧
    patchers w' !! m
    = Some {| model := sample_tree;
              attn1_patch := [SharedAttentionProcessor_init StyleAlignedArgs_default
                                0.5 None] |}.
Proof.
  apply (patch_disabled_wraps_nothing (λ tree, tree) sample_world 7 "disabled"
           0.5%float None {| model := sample_tree; attn1_patch := [] |});
    [|reflexivity].
  apply (bool_decide_unpack _). vm_compute. exact I.
Defined.

Lemma patch_twice_witness :
  ∃ w1 m1 w2 m2,
    patch (λ tree, tree) sample_world 7 "both" 0.5%float None = Some (w1, m1) ∧
    patch (λ tree, tree) w1 7 "both" 1%float None = Some (w2, m2) ∧
    modules w2 = modules w1 ∧
    m2 ≠ m1 ∧ m2 ≠ 7 ∧
    patchers w2 !! m1 = patchers w1 !! m1 ∧
    patchers w2 !! 7 = patchers sample_world !! 7.
Proof.
  apply (patch_twice_wraps_once (λ tree, tree) sample_world 7 "both"
           0.5%float None 1%float None {| model := sample_tree; attn1_patch := [] |}).
  reflexivity.
Defined.
